(** * App.vue: the staggered search refinement of the search page

    A shallow embedding of the script part of [src/App.vue]: the reactive
    refs of the component become one record ([Store]), the browser's
    event loop (pending timers, promises in flight, the clock read by
    [Date.now()]) becomes an explicit [World], and every callback of the
    component becomes a function on worlds.  Handlers run to completion:
    one event of the loop is one call of [step]. *)

From Stdlib Require Import ZArith String Ascii List Sorting.Sorted Permutation.
From stdpp Require Import base option list gmap.
Import ListNotations.

Local Open Scope string_scope.
Local Open Scope Z_scope.

(** ** Category keys *)

Module Keys.

(** [\d] of a JavaScript regular expression: the ten ASCII digits. *)
Definition is_digit (c : ascii) : bool :=
  let n := nat_of_ascii c in (Nat.leb 48 n) && (Nat.leb n 57).

Fixpoint all_digits (s : string) : bool :=
  match s with
  | EmptyString => true
  | String c s' => is_digit c && all_digits s'
  end.

(** [/^\d+$/.test(key)]: at least one character, digits only. *)
Definition test_digits (key : string) : bool :=
  match key with
  | EmptyString => false
  | String _ _ => all_digits key
  end.

Definition disk_prefix : string := "disk_".

(** [normalizeKey]: [/^\d+$/.test(key) ? `disk_${key}` : key]. *)
Definition normalizeKey (key : string) : string :=
  if test_digits key then String.append disk_prefix key else key.

(** [strip p s] is [Some r] when [s = p ++ r]. *)
Fixpoint strip (p s : string) : option string :=
  match p, s with
  | EmptyString, _ => Some s
  | String a p', String b s' => if Ascii.eqb a b then strip p' s' else None
  | String _ _, EmptyString => None
  end.

(** [denormalizeKey]: [key.replace(/^disk_/, "")]. *)
Definition denormalizeKey (key : string) : string :=
  match strip disk_prefix key with
  | Some rest => rest
  | None => key
  end.

Definition diskSortOrder : list string :=
  ["aliyun"; "baidu"; "quark"; "115"; "123"; "xunlei"; "mobile"; "tianyi";
   "uc"; "pikpak"; "ed2k"; "magnet"; "other"].

(** [Array.prototype.indexOf]: the first index holding [x], or [-1]. *)
Fixpoint indexOf (l : list string) (x : string) : Z :=
  match l with
  | [] => -1
  | y :: l' =>
      if String.eqb y x then 0
      else let i := indexOf l' x in if i =? -1 then -1 else i + 1
  end.

(** The position a (prefixed) key is sorted by:
    [idx === -1 ? 999 : idx] with [idx = diskSortOrder.indexOf(denormalizeKey(key))]. *)
Definition pos (key : string) : Z :=
  let idx := indexOf diskSortOrder (denormalizeKey key) in
  if idx =? -1 then 999 else idx.

End Keys.

(** ** Arrays and objects of entries *)

Module Entries.

(** The key that an assignment does not store. *)
Definition proto : string := "__proto__".

Section WithValues.
Context {V : Type}.

(** [Array.prototype.sort(compare)] is stable: [x] is moved behind [y]
    only when [compare x y > 0].  Insertion from the right gives that
    order, which for a comparator that subtracts two ranks is the only
    stable sorted arrangement. *)
Fixpoint insert_by (compare : V -> V -> Z) (x : V) (l : list V) : list V :=
  match l with
  | [] => [x]
  | y :: l' =>
      if 0 <? compare x y then y :: insert_by compare x l'
      else x :: y :: l'
  end.

Fixpoint sort_by (compare : V -> V -> Z) (l : list V) : list V :=
  match l with
  | [] => []
  | x :: l' => insert_by compare x (sort_by compare l')
  end.

(** An own property created or overwritten, for a key that is not an
    array index: an existing key keeps its place and takes the new value,
    a new key goes last. *)
Fixpoint define (k : string) (v : V) (acc : list (string * V)) : list (string * V) :=
  match acc with
  | [] => [(k, v)]
  | (k', v') :: acc' =>
      if String.eqb k' k then (k', v) :: acc'
      else (k', v') :: define k v acc'
  end.

(** [acc[k] = v] on an object created by [{}], held as its own entries.
    [acc["__proto__"] = v] runs the setter inherited from
    [Object.prototype]: it creates no own property and leaves the own
    entries as they are.  Every other key is an own property afterwards. *)
Definition assign (k : string) (v : V) (acc : list (string * V)) : list (string * V) :=
  if String.eqb k proto then acc else define k v acc.

(** [entries.reduce((acc, [k, v]) => { acc[k] = v; return acc; }, {})]. *)
Definition to_object (entries : list (string * V)) : list (string * V) :=
  fold_left (fun acc e => assign (fst e) (snd e) acc) entries [].

(** [obj[k]] read among the own entries. *)
Fixpoint get (k : string) (l : list (string * V)) : option V :=
  match l with
  | [] => None
  | (k', v) :: l' => if String.eqb k' k then Some v else get k l'
  end.

(** The value of the last entry of a list of entries that has key [k]. *)
Fixpoint last_value (k : string) (l : list (string * V)) : option V :=
  match l with
  | [] => None
  | (k', v) :: l' =>
      match last_value k l' with
      | Some v' => Some v'
      | None => if String.eqb k' k then Some v else None
      end
  end.

End WithValues.
End Entries.

(** ** Responses and the component's refs *)

(** An item of a category; the component never looks inside one. *)
Definition MergedLink : Type := string.

(** [MergedResults]: an object from category key to items, held as its
    entries in enumeration order ([Object.entries]); keys are distinct. *)
Definition MergedResults : Type := list (string * list MergedLink).

(** [SearchResponse]; a field that is absent ([undefined]) is [None]. *)
Record SearchResponse : Type := mkResponse {
  total : option Z;
  merged_by_type : option MergedResults
}.

Record SearchParams : Type := mkParams {
  kw : string;
  src : option string;
  filters : list (string * string)
}.

(** [{ ...params, src: s }]. *)
Definition with_src (s : string) (params : SearchParams) : SearchParams :=
  {| kw := kw params; src := Some s; filters := filters params |}.

(** The refs of the component.  Timer handles are the ids handed out by
    [setTimeout], integers greater than zero, so that the test
    [if (handle.value)] is the test against [null]. *)
Record Store : Type := mkStore {
  loading : bool;
  searchResults_total : Z;
  searchResults_mergedResults : MergedResults;
  searchTime : option Z;
  isUpdating : bool;
  updateCount : Z;
  updateTimer : option positive;
  secondSearchTimeout : option positive;
  thirdSearchTimeout : option positive;
  lastSearchParams : option SearchParams;
  hasSearched : bool;
  isActivelySearching : bool;
  keyword : string
}.

Definition initial_store : Store :=
  {| loading := false;
     searchResults_total := 0;
     searchResults_mergedResults := [];
     searchTime := None;
     isUpdating := false;
     updateCount := 0;
     updateTimer := None;
     secondSearchTimeout := None;
     thirdSearchTimeout := None;
     lastSearchParams := None;
     hasSearched := false;
     isActivelySearching := false;
     keyword := "" |}.

(** [response.total || 0]. *)
Definition total_or_zero (t : option Z) : Z :=
  match t with
  | Some n => if n =? 0 then 0 else n
  | None => 0
  end.

(** Step 1 to 3 of [updateSearchResults]: prefix, sort, rebuild. *)
Definition sortedMerged (merged : MergedResults) : MergedResults :=
  let entries := map (fun e => (Keys.normalizeKey (fst e), snd e)) merged in
  let sorted :=
    Entries.sort_by (fun a b => Keys.pos (fst a) - Keys.pos (fst b)) entries in
  Entries.to_object sorted.

Definition set_results (t : Z) (m : MergedResults) (s : Store) : Store :=
  {| loading := loading s;
     searchResults_total := t;
     searchResults_mergedResults := m;
     searchTime := searchTime s;
     isUpdating := isUpdating s;
     updateCount := updateCount s;
     updateTimer := updateTimer s;
     secondSearchTimeout := secondSearchTimeout s;
     thirdSearchTimeout := thirdSearchTimeout s;
     lastSearchParams := lastSearchParams s;
     hasSearched := hasSearched s;
     isActivelySearching := isActivelySearching s;
     keyword := keyword s |}.

(** [updateSearchResults(response)]; a [null] response is [None]. *)
Definition updateSearchResults (response : option SearchResponse) (s : Store) : Store :=
  match response with
  | None => s
  | Some r =>
      match merged_by_type r with
      | None => set_results (total_or_zero (total r)) [] s
      | Some merged => set_results (total_or_zero (total r)) (sortedMerged merged) s
      end
  end.

(** Assignments to the other refs. *)
Definition set_loading (b : bool) (s : Store) : Store :=
  {| loading := b;
     searchResults_total := searchResults_total s;
     searchResults_mergedResults := searchResults_mergedResults s;
     searchTime := searchTime s;
     isUpdating := isUpdating s;
     updateCount := updateCount s;
     updateTimer := updateTimer s;
     secondSearchTimeout := secondSearchTimeout s;
     thirdSearchTimeout := thirdSearchTimeout s;
     lastSearchParams := lastSearchParams s;
     hasSearched := hasSearched s;
     isActivelySearching := isActivelySearching s;
     keyword := keyword s |}.

Definition set_searchTime (t : option Z) (s : Store) : Store :=
  {| loading := loading s;
     searchResults_total := searchResults_total s;
     searchResults_mergedResults := searchResults_mergedResults s;
     searchTime := t;
     isUpdating := isUpdating s;
     updateCount := updateCount s;
     updateTimer := updateTimer s;
     secondSearchTimeout := secondSearchTimeout s;
     thirdSearchTimeout := thirdSearchTimeout s;
     lastSearchParams := lastSearchParams s;
     hasSearched := hasSearched s;
     isActivelySearching := isActivelySearching s;
     keyword := keyword s |}.

Definition set_isUpdating (b : bool) (s : Store) : Store :=
  {| loading := loading s;
     searchResults_total := searchResults_total s;
     searchResults_mergedResults := searchResults_mergedResults s;
     searchTime := searchTime s;
     isUpdating := b;
     updateCount := updateCount s;
     updateTimer := updateTimer s;
     secondSearchTimeout := secondSearchTimeout s;
     thirdSearchTimeout := thirdSearchTimeout s;
     lastSearchParams := lastSearchParams s;
     hasSearched := hasSearched s;
     isActivelySearching := isActivelySearching s;
     keyword := keyword s |}.

Definition set_updateCount (n : Z) (s : Store) : Store :=
  {| loading := loading s;
     searchResults_total := searchResults_total s;
     searchResults_mergedResults := searchResults_mergedResults s;
     searchTime := searchTime s;
     isUpdating := isUpdating s;
     updateCount := n;
     updateTimer := updateTimer s;
     secondSearchTimeout := secondSearchTimeout s;
     thirdSearchTimeout := thirdSearchTimeout s;
     lastSearchParams := lastSearchParams s;
     hasSearched := hasSearched s;
     isActivelySearching := isActivelySearching s;
     keyword := keyword s |}.

Definition set_updateTimer (h : option positive) (s : Store) : Store :=
  {| loading := loading s;
     searchResults_total := searchResults_total s;
     searchResults_mergedResults := searchResults_mergedResults s;
     searchTime := searchTime s;
     isUpdating := isUpdating s;
     updateCount := updateCount s;
     updateTimer := h;
     secondSearchTimeout := secondSearchTimeout s;
     thirdSearchTimeout := thirdSearchTimeout s;
     lastSearchParams := lastSearchParams s;
     hasSearched := hasSearched s;
     isActivelySearching := isActivelySearching s;
     keyword := keyword s |}.

Definition set_secondSearchTimeout (h : option positive) (s : Store) : Store :=
  {| loading := loading s;
     searchResults_total := searchResults_total s;
     searchResults_mergedResults := searchResults_mergedResults s;
     searchTime := searchTime s;
     isUpdating := isUpdating s;
     updateCount := updateCount s;
     updateTimer := updateTimer s;
     secondSearchTimeout := h;
     thirdSearchTimeout := thirdSearchTimeout s;
     lastSearchParams := lastSearchParams s;
     hasSearched := hasSearched s;
     isActivelySearching := isActivelySearching s;
     keyword := keyword s |}.

Definition set_thirdSearchTimeout (h : option positive) (s : Store) : Store :=
  {| loading := loading s;
     searchResults_total := searchResults_total s;
     searchResults_mergedResults := searchResults_mergedResults s;
     searchTime := searchTime s;
     isUpdating := isUpdating s;
     updateCount := updateCount s;
     updateTimer := updateTimer s;
     secondSearchTimeout := secondSearchTimeout s;
     thirdSearchTimeout := h;
     lastSearchParams := lastSearchParams s;
     hasSearched := hasSearched s;
     isActivelySearching := isActivelySearching s;
     keyword := keyword s |}.

Definition set_lastSearchParams (p : option SearchParams) (s : Store) : Store :=
  {| loading := loading s;
     searchResults_total := searchResults_total s;
     searchResults_mergedResults := searchResults_mergedResults s;
     searchTime := searchTime s;
     isUpdating := isUpdating s;
     updateCount := updateCount s;
     updateTimer := updateTimer s;
     secondSearchTimeout := secondSearchTimeout s;
     thirdSearchTimeout := thirdSearchTimeout s;
     lastSearchParams := p;
     hasSearched := hasSearched s;
     isActivelySearching := isActivelySearching s;
     keyword := keyword s |}.

Definition set_hasSearched (b : bool) (s : Store) : Store :=
  {| loading := loading s;
     searchResults_total := searchResults_total s;
     searchResults_mergedResults := searchResults_mergedResults s;
     searchTime := searchTime s;
     isUpdating := isUpdating s;
     updateCount := updateCount s;
     updateTimer := updateTimer s;
     secondSearchTimeout := secondSearchTimeout s;
     thirdSearchTimeout := thirdSearchTimeout s;
     lastSearchParams := lastSearchParams s;
     hasSearched := b;
     isActivelySearching := isActivelySearching s;
     keyword := keyword s |}.

Definition set_isActivelySearching (b : bool) (s : Store) : Store :=
  {| loading := loading s;
     searchResults_total := searchResults_total s;
     searchResults_mergedResults := searchResults_mergedResults s;
     searchTime := searchTime s;
     isUpdating := isUpdating s;
     updateCount := updateCount s;
     updateTimer := updateTimer s;
     secondSearchTimeout := secondSearchTimeout s;
     thirdSearchTimeout := thirdSearchTimeout s;
     lastSearchParams := lastSearchParams s;
     hasSearched := hasSearched s;
     isActivelySearching := b;
     keyword := keyword s |}.

Definition set_keyword (k : string) (s : Store) : Store :=
  {| loading := loading s;
     searchResults_total := searchResults_total s;
     searchResults_mergedResults := searchResults_mergedResults s;
     searchTime := searchTime s;
     isUpdating := isUpdating s;
     updateCount := updateCount s;
     updateTimer := updateTimer s;
     secondSearchTimeout := secondSearchTimeout s;
     thirdSearchTimeout := thirdSearchTimeout s;
     lastSearchParams := lastSearchParams s;
     hasSearched := hasSearched s;
     isActivelySearching := isActivelySearching s;
     keyword := k |}.

(** ** The event loop *)

(** What runs when the promise returned by [search] settles: the
    [.then]/[.catch] pair attached to it, or the rest of the [async]
    function after its [await]. *)
Inductive Continuation : Type :=
  | AfterTg (startTime : Z) (allParams : SearchParams)
      (* lines 92 to 156: handlers of the TG search *)
  | AfterFirstAll
      (* lines 102 to 119: first ALL search, issued after TG published *)
  | AfterFirstAllFallback
      (* lines 126 to 136 and 145 to 155: first ALL search, TG did not publish *)
  | AfterSecondAll
      (* lines 247 to 260: rest of executeSecondAllSearch *)
  | AfterThirdAll.
      (* lines 294 to 303: rest of executeThirdAllSearch *)

(** The functions handed to [setTimeout]. *)
Inductive Callback : Type :=
  | loadingTimeout
  | executeSecondAllSearch (allParams : SearchParams)
  | executeThirdAllSearch (allParams : SearchParams).

(** How a promise settles; a fulfilled promise may carry [null]. *)
Inductive Outcome : Type :=
  | Rejected
  | Resolved (response : option SearchResponse).

Record World : Type := mkWorld {
  store : Store;
  now : Z;                                        (* Date.now(), in ms *)
  timers : gmap positive (Z * Callback);          (* handle to due time, callback *)
  next_timer : positive;
  requests : gmap positive (SearchParams * Continuation);
  next_request : positive
}.

Definition initial_world : World :=
  {| store := initial_store; now := 0; timers := ∅; next_timer := 1%positive;
     requests := ∅; next_request := 1%positive |}.

Definition on_store (f : Store -> Store) (w : World) : World :=
  {| store := f (store w); now := now w; timers := timers w;
     next_timer := next_timer w; requests := requests w;
     next_request := next_request w |}.

(** [setTimeout(cb, delay)]: the callback becomes due [delay] ms from now;
    the handle is fresh. *)
Definition setTimeout (cb : Callback) (delay : Z) (w : World) : positive * World :=
  (next_timer w,
   {| store := store w; now := now w;
      timers := <[next_timer w := (now w + delay, cb)]> (timers w);
      next_timer := Pos.succ (next_timer w);
      requests := requests w; next_request := next_request w |}).

(** [clearTimeout(h)] and [clearInterval(h)]: they share one pool of ids. *)
Definition clearTimeout (h : positive) (w : World) : World :=
  {| store := store w; now := now w; timers := delete h (timers w);
     next_timer := next_timer w; requests := requests w;
     next_request := next_request w |}.

(** [search(params)] with its continuation attached: one more request in
    flight. *)
Definition search (params : SearchParams) (k : Continuation) (w : World) : World :=
  {| store := store w; now := now w; timers := timers w;
     next_timer := next_timer w;
     requests := <[next_request w := (params, k)]> (requests w);
     next_request := Pos.succ (next_request w) |}.

(** [stopUpdate]. *)
Definition stopUpdate (w : World) : World :=
  let w1 :=
    match updateTimer (store w) with
    | Some h => on_store (set_updateTimer None) (clearTimeout h w)
    | None => w
    end in
  let w2 :=
    match secondSearchTimeout (store w1) with
    | Some h => on_store (set_secondSearchTimeout None) (clearTimeout h w1)
    | None => w1
    end in
  let w3 :=
    match thirdSearchTimeout (store w2) with
    | Some h => on_store (set_thirdSearchTimeout None) (clearTimeout h w2)
    | None => w2
    end in
  on_store (fun s => set_isActivelySearching false (set_isUpdating false s)) w3.

(** [Math.max(0, 2000 - (currentTime - firstAllSearchCompleteTime))]. *)
Definition delayForSecondSearch (currentTime firstAllSearchCompleteTime : Z) : Z :=
  Z.max 0 (2000 - (currentTime - firstAllSearchCompleteTime)).

(** [Math.max(0, 3000 - (currentTime - secondAllSearchCompleteTime))]. *)
Definition delayForThirdSearch (currentTime secondAllSearchCompleteTime : Z) : Z :=
  Z.max 0 (3000 - (currentTime - secondAllSearchCompleteTime)).

(** [startSecondAllSearch(firstAllSearchCompleteTime)]. *)
Definition startSecondAllSearch (firstAllSearchCompleteTime : Z) (w : World) : World :=
  match lastSearchParams (store w) with
  | None => w
  | Some p =>
      let w1 :=
        on_store (fun s => set_updateCount 1
                    (set_isActivelySearching true (set_isUpdating true s))) w in
      let allParams := with_src "all" p in
      let delay := delayForSecondSearch (now w1) firstAllSearchCompleteTime in
      let '(h, w2) := setTimeout (executeSecondAllSearch allParams) delay w1 in
      on_store (set_secondSearchTimeout (Some h)) w2
  end.

(** [startThirdAllSearch(secondAllSearchCompleteTime)]. *)
Definition startThirdAllSearch (secondAllSearchCompleteTime : Z) (w : World) : World :=
  match lastSearchParams (store w) with
  | None => w
  | Some p =>
      let w1 := on_store (set_updateCount 2) w in
      let allParams := with_src "all" p in
      let delay := delayForThirdSearch (now w1) secondAllSearchCompleteTime in
      let '(h, w2) := setTimeout (executeThirdAllSearch allParams) delay w1 in
      on_store (set_thirdSearchTimeout (Some h)) w2
  end.

(** [tgResponse && tgResponse.total !== undefined]. *)
Definition has_total (response : option SearchResponse) : bool :=
  match response with
  | Some r => match total r with Some _ => true | None => false end
  | None => false
  end.

(** [response && response.total >= searchResults.total]; a comparison
    with [undefined] is false. *)
Definition at_least_current (response : option SearchResponse) (s : Store) : bool :=
  match response with
  | Some r =>
      match total r with
      | Some t => searchResults_total s <=? t
      | None => false
      end
  | None => false
  end.

(** The publish guarded by the comparison, as in lines 107, 248 and 295. *)
Definition update_if_more (response : option SearchResponse) (w : World) : World :=
  if at_least_current response (store w)
  then on_store (updateSearchResults response) w
  else w.

(** The continuation of a settled request. *)
Definition resume (k : Continuation) (o : Outcome) (w : World) : World :=
  match k with
  | AfterTg startTime allParams =>
      match o with
      | Resolved tgResponse =>
          if has_total tgResponse then
            let w1 := on_store (updateSearchResults tgResponse) w in
            let w2 := on_store (set_searchTime (Some (now w1 - startTime))) w1 in
            let w3 := on_store (set_loading false) w2 in
            search allParams AfterFirstAll w3
          else
            search allParams AfterFirstAllFallback (on_store (set_loading false) w)
      | Rejected =>
          search allParams AfterFirstAllFallback (on_store (set_loading false) w)
      end
  | AfterFirstAll =>
      match o with
      | Resolved allResponse =>
          let firstAllSearchCompleteTime := now w in
          startSecondAllSearch firstAllSearchCompleteTime (update_if_more allResponse w)
      | Rejected => startSecondAllSearch (now w) w
      end
  | AfterFirstAllFallback =>
      match o with
      | Resolved allResponse =>
          if has_total allResponse then
            let w1 := on_store (updateSearchResults allResponse) w in
            let firstAllSearchCompleteTime := now w1 in
            startSecondAllSearch firstAllSearchCompleteTime w1
          else w
      | Rejected => on_store (set_isActivelySearching false) w
      end
  | AfterSecondAll =>
      match o with
      | Resolved response =>
          let w1 := update_if_more response w in
          let secondAllSearchCompleteTime := now w1 in
          startThirdAllSearch secondAllSearchCompleteTime w1
      | Rejected => stopUpdate w
      end
  | AfterThirdAll =>
      match o with
      | Resolved response => stopUpdate (update_if_more response w)
      | Rejected => stopUpdate w
      end
  end.

(** The body of a timer callback. *)
Definition call (cb : Callback) (w : World) : World :=
  match cb with
  | loadingTimeout =>
      if loading (store w) then on_store (set_loading false) w else w
  | executeSecondAllSearch allParams =>
      match lastSearchParams (store w) with
      | None => stopUpdate w
      | Some _ => search allParams AfterSecondAll w
      end
  | executeThirdAllSearch allParams =>
      match lastSearchParams (store w) with
      | None => stopUpdate w
      | Some _ => search allParams AfterThirdAll w
      end
  end.

(** [handleSearch(params)], up to its first return to the event loop. *)
Definition handleSearch (params : SearchParams) (w : World) : World :=
  let w1 := stopUpdate w in
  let w2 := on_store (set_keyword (kw params)) w1 in
  let w3 := on_store (fun s => set_isActivelySearching true (set_hasSearched true s)) w2 in
  let w4 := on_store (set_loading true) w3 in
  let w5 := on_store (fun s => set_searchTime None (set_results 0 [] s)) w4 in
  let w6 := on_store (set_lastSearchParams (Some params)) w5 in
  let startTime := now w6 in
  let tgParams := with_src "tg" params in
  let allParams := with_src "all" params in
  let w7 := search tgParams (AfterTg startTime allParams) w6 in
  snd (setTimeout loadingTimeout 5000 w7).

(** [resetToInitial] (the page switch aside). *)
Definition resetToInitial (w : World) : World :=
  let w1 := stopUpdate w in
  on_store (fun s =>
    set_updateCount 0 (set_isUpdating false (set_searchTime None
      (set_results 0 [] (set_loading false
        (set_isActivelySearching false (set_hasSearched false s))))))) w1.

Inductive Event : Type :=
  | Search (params : SearchParams)       (* the form emits "search" *)
  | Settle (id : positive) (o : Outcome) (* the promise of request [id] settles *)
  | Fire (h : positive)                  (* timer [h] runs *)
  | Tick (ms : Z)                        (* the clock advances *)
  | ResetToInitial                       (* click on the logo *)
  | Unmounted.                           (* onUnmounted *)

Definition take_request (id : positive) (w : World) : World :=
  {| store := store w; now := now w; timers := timers w;
     next_timer := next_timer w; requests := delete id (requests w);
     next_request := next_request w |}.

Definition advance (ms : Z) (w : World) : World :=
  {| store := store w; now := now w + ms; timers := timers w;
     next_timer := next_timer w; requests := requests w;
     next_request := next_request w |}.

(** One turn of the event loop; [None] when the event cannot happen: no
    such request in flight, no such timer pending or not yet due, time
    running backwards. *)
Definition step (w : World) (e : Event) : option World :=
  match e with
  | Search params => Some (handleSearch params w)
  | Settle id o =>
      match requests w !! id with
      | Some (_, k) => Some (resume k o (take_request id w))
      | None => None
      end
  | Fire h =>
      match timers w !! h with
      | Some (due, cb) =>
          if due <=? now w then Some (call cb (clearTimeout h w)) else None
      | None => None
      end
  | Tick ms => if 0 <=? ms then Some (advance ms w) else None
  | ResetToInitial => Some (resetToInitial w)
  | Unmounted => Some (stopUpdate w)
  end.

Fixpoint run (w : World) (es : list Event) : option World :=
  match es with
  | [] => Some w
  | e :: es' =>
      match step w e with
      | Some w' => run w' es'
      | None => None
      end
  end.

(** The totals shown after each event of a run. *)
Fixpoint shown_totals (w : World) (es : list Event) : list Z :=
  match es with
  | [] => []
  | e :: es' =>
      match step w e with
      | Some w' => searchResults_total (store w') :: shown_totals w' es'
      | None => []
      end
  end.

(** ** What is shown, and what a handler leaves alone *)

(** The displayed results: the total and the category map. *)
Definition shown (w : World) : Z * MergedResults :=
  (searchResults_total (store w), searchResults_mergedResults (store w)).

(** The timer handles held in the three refs. *)
Definition stored_handle (w : World) (h : positive) : Prop :=
  updateTimer (store w) = Some h \/
  secondSearchTimeout (store w) = Some h \/
  thirdSearchTimeout (store w) = Some h.

(** Timer [h], handed out before [w], is in [w'] as it was in [w] or gone. *)
Definition keeps (h : positive) (w w' : World) : Prop :=
  (h < next_timer w)%positive ->
  (h < next_timer w')%positive /\
  (timers w' !! h = timers w !! h \/ timers w' !! h = None).

(** Timer [h] does not run before the clock reads [t], whatever happens
    from [w] on. *)
Definition fires_no_earlier (w : World) (h : positive) (t : Z) : Prop :=
  forall es w1 w2,
    run w es = Some w1 -> step w1 (Fire h) = Some w2 -> t <= now w1.

(** Timer [h] never runs from [w] on. *)
Definition never_fires (w : World) (h : positive) : Prop :=
  forall es w1, run w es = Some w1 -> step w1 (Fire h) = None.

(** The total carried by a settled promise, when it carries one. *)
Definition received (e : Event) : option Z :=
  match e with
  | Settle _ (Resolved (Some r)) => total r
  | _ => None
  end.

(** The largest total among [best] and those received in [es]. *)
Definition best_total (best : Z) (es : list Event) : Z :=
  fold_left (fun acc e =>
    match received e with Some t => Z.max acc t | None => acc end) es best.

(** Events of a refinement sequence under way: no new search, no reset. *)
Definition within_sequence (e : Event) : bool :=
  match e with
  | Search _ | ResetToInitial => false
  | _ => true
  end.

(** Requests whose answer is published only when it is at least the
    displayed total. *)
Definition guarded (k : Continuation) : bool :=
  match k with
  | AfterFirstAll | AfterSecondAll | AfterThirdAll => true
  | AfterTg _ _ | AfterFirstAllFallback => false
  end.

(** Every request in flight is a guarded one: the state of a refinement
    sequence once the TG answer is published and no other search has an
    unguarded request out. *)
Definition all_guarded (w : World) : bool :=
  forallb (fun e => guarded (snd (snd e))) (map_to_list (requests w)).

(** An outcome that brings no total: a rejection, [null], or a response
    without [total]. *)
Definition no_total (o : Outcome) : bool :=
  match o with
  | Rejected => true
  | Resolved response => negb (has_total response)
  end.

(** The test a phase applies before it publishes a response. *)
Definition publishes (k : Continuation) (r : SearchResponse) (s : Store) : bool :=
  if guarded k then at_least_current (Some r) s else has_total (Some r).

(** The category map [updateSearchResults] stores for a response. *)
Definition published_map (r : SearchResponse) : MergedResults :=
  match merged_by_type r with
  | Some merged => sortedMerged merged
  | None => []
  end.

(** Step 1 of [updateSearchResults] on one entry. *)
Definition normalised (e : string * list MergedLink) : string * list MergedLink :=
  (Keys.normalizeKey (fst e), snd e).

(** [idx === -1 ? 999 : idx] for the index of a name in [diskSortOrder]. *)
Definition listed_rank (name : string) : Z :=
  let idx := Keys.indexOf Keys.diskSortOrder name in
  if idx =? -1 then 999 else idx.

(** The order the comparator of step 2 sorts into. *)
Definition pos_le (a b : string * list MergedLink) : Prop :=
  Keys.pos (fst a) <= Keys.pos (fst b).

(** The entries of a list whose key has position [r]. *)
Definition at_pos (r : Z) (l : MergedResults) : MergedResults :=
  List.filter (fun e => Keys.pos (fst e) =? r) l.

(** The entries that the assignments of step 3 store. *)
Definition stored (l : MergedResults) : MergedResults :=
  List.filter (fun e => negb (String.eqb (fst e) Entries.proto)) l.

(** [w'] has no timer and no request that [w] did not have. *)
Definition nothing_new (w w' : World) : Prop :=
  (forall h x, timers w' !! h = Some x -> timers w !! h = Some x) /\
  (forall i x, requests w' !! i = Some x -> requests w !! i = Some x).

(** The refinement sequence is over: no handle stored, both flags off. *)
Definition sequence_over (w : World) : Prop :=
  secondSearchTimeout (store w) = None /\
  thirdSearchTimeout (store w) = None /\
  isUpdating (store w) = false /\
  isActivelySearching (store w) = false.

(** Timer [h] is pending in [w], due at [due], and held in the ref read
    by [handle]. *)
Definition scheduled (w : World) (handle : Store -> option positive)
    (h : positive) (due : Z) (cb : Callback) : Prop :=
  handle (store w) = Some h /\ timers w !! h = Some (due, cb).

(** ** Worlds the component can be in *)

(** The worlds reached from the initial one by some events. *)
Definition reachable (w : World) : Prop :=
  exists es, run initial_world es = Some w.

(** Timer [h], handed out before [w] and held in no ref, is in [w'] as
    it was in [w], and still held in no ref. *)
Definition untouched (h : positive) (w w' : World) : Prop :=
  (h < next_timer w)%positive /\ ~ stored_handle w h ->
  ((h < next_timer w')%positive /\ ~ stored_handle w' h) /\
  timers w' !! h = timers w !! h.


(** ** Worlds and traces used as examples *)

Module Ex.

Definition foo : SearchParams := {| kw := "foo"; src := None; filters := [] |}.
Definition bar : SearchParams := {| kw := "bar"; src := None; filters := [] |}.

(** A well-formed response. *)
Definition ok (t : Z) (m : MergedResults) : Outcome :=
  Resolved (Some {| total := Some t; merged_by_type := Some m |}).

(** A response with a total and no [merged_by_type]. *)
Definition no_map (t : Z) : Outcome :=
  Resolved (Some {| total := Some t; merged_by_type := None |}).

(** A response without [total]. *)
Definition no_total_field (m : MergedResults) : Outcome :=
  Resolved (Some {| total := None; merged_by_type := Some m |}).

(** The world reached from [initial_world] by a trace, or [initial_world]
    when the trace cannot happen. *)
Definition after (es : list Event) : World :=
  match run initial_world es with
  | Some w => w
  | None => initial_world
  end.

(** Search "foo", TG answers 5 results in one category. *)
Definition tg_published : list Event :=
  [Search foo; Settle 1 (ok 5 [("aliyun", ["a"])])].

(** ... then the first ALL search answers and the second one is waiting. *)
Definition second_pending : list Event :=
  tg_published ++ [Tick 900; Settle 2 (ok 5 [("aliyun", ["a"])])].

(** ... then the second ALL search is issued, answers, and the third one
    is waiting. *)
Definition third_pending : list Event :=
  second_pending ++ [Tick 2000; Fire 2; Tick 500; Settle 3 (ok 7 [])].

(** ... or the second ALL search is issued and fails. *)
Definition second_failed : list Event :=
  second_pending ++ [Tick 2000; Fire 2; Tick 500; Settle 3 Rejected].

(** The world in which the second ALL search (request 3) is in flight. *)
Definition second_issued : list Event :=
  second_pending ++ [Tick 2000; Fire 2; Tick 500].


(** A search for "bar" started while the first ALL search for "foo" is in
    flight, whose answer then arrives. *)
Definition superseded : list Event :=
  tg_published ++ [Tick 100; Search bar].

Definition late_answer : Outcome := ok 10 [("quark", ["old"])].

(** A search for "bar" started 4 s after the search for "foo"; one second
    later the loading timeout of "foo" runs. *)
Definition two_searches : list Event :=
  tg_published ++ [Tick 4000; Search bar; Tick 1000].

(** What follows the TG answer in a sequence that runs to its end: the
    three ALL searches answer 5, 7 and 6 results. *)
Definition refinements : list Event :=
  [Tick 900; Settle 2 (ok 5 [("aliyun", ["a"])]);
   Tick 2000; Fire 2; Tick 500; Settle 3 (ok 7 []);
   Tick 3000; Fire 3; Tick 400; Settle 4 (ok 6 [])].

(** A category map with an integer key, an unlisted key and a listed key. *)
Definition categories : MergedResults :=
  [("101", ["x"]); ("zzz", ["y"]); ("aliyun", ["z"])].

End Ex.

(** ** Basic facts about the handlers *)

Lemma stopUpdate_store w :
  store (stopUpdate w) =
  set_isActivelySearching false (set_isUpdating false
    (set_thirdSearchTimeout None (set_secondSearchTimeout None
      (set_updateTimer None (store w))))).
Proof.
  destruct w as [s n tm nt rq nr]; destruct s as [? ? ? ? ? ? [a|] [b|] [c|] ? ? ? ?];
    reflexivity.
Qed.

Lemma stopUpdate_shown w : shown (stopUpdate w) = shown w.
Proof. unfold shown. rewrite stopUpdate_store. reflexivity. Qed.

Lemma stopUpdate_now w : now (stopUpdate w) = now w.
Proof.
  destruct w as [s n tm nt rq nr]; destruct s as [? ? ? ? ? ? [a|] [b|] [c|] ? ? ? ?];
    reflexivity.
Qed.

Lemma stopUpdate_requests w : requests (stopUpdate w) = requests w.
Proof.
  destruct w as [s n tm nt rq nr]; destruct s as [? ? ? ? ? ? [a|] [b|] [c|] ? ? ? ?];
    reflexivity.
Qed.

Lemma stopUpdate_next_timer w : next_timer (stopUpdate w) = next_timer w.
Proof.
  destruct w as [s n tm nt rq nr]; destruct s as [? ? ? ? ? ? [a|] [b|] [c|] ? ? ? ?];
    reflexivity.
Qed.

Lemma stopUpdate_timers w h :
  timers (stopUpdate w) !! h =
  if decide (stored_handle w h) then None else timers w !! h.
Proof.
  unfold stored_handle.
  destruct w as [s n tm nt rq nr]; destruct s as [? ? ? ? ? ? [a|] [b|] [c|] ? ? ? ?];
    cbn; rewrite ?lookup_delete; repeat case_decide; try reflexivity;
    exfalso; intuition congruence.
Qed.

Lemma startSecondAllSearch_shown t w : shown (startSecondAllSearch t w) = shown w.
Proof. unfold startSecondAllSearch. destruct (lastSearchParams (store w)); reflexivity. Qed.

Lemma startThirdAllSearch_shown t w : shown (startThirdAllSearch t w) = shown w.
Proof. unfold startThirdAllSearch. destruct (lastSearchParams (store w)); reflexivity. Qed.

Lemma startSecondAllSearch_total t w :
  searchResults_total (store (startSecondAllSearch t w)) = searchResults_total (store w).
Proof. unfold startSecondAllSearch. destruct (lastSearchParams (store w)); reflexivity. Qed.

Lemma startThirdAllSearch_total t w :
  searchResults_total (store (startThirdAllSearch t w)) = searchResults_total (store w).
Proof. unfold startThirdAllSearch. destruct (lastSearchParams (store w)); reflexivity. Qed.

Lemma updateSearchResults_total r s :
  searchResults_total (updateSearchResults (Some r) s) = total_or_zero (total r).
Proof. unfold updateSearchResults. destruct (merged_by_type r); reflexivity. Qed.

Lemma startSecondAllSearch_loading t w :
  loading (store (startSecondAllSearch t w)) = loading (store w).
Proof. unfold startSecondAllSearch. destruct (lastSearchParams (store w)); reflexivity. Qed.

Lemma startThirdAllSearch_loading t w :
  loading (store (startThirdAllSearch t w)) = loading (store w).
Proof. unfold startThirdAllSearch. destruct (lastSearchParams (store w)); reflexivity. Qed.

Lemma updateSearchResults_loading r s :
  loading (updateSearchResults r s) = loading s.
Proof. destruct r as [[t [m|]]|]; reflexivity. Qed.

Lemma update_if_more_loading r w :
  loading (store (update_if_more r w)) = loading (store w).
Proof.
  unfold update_if_more. destruct (at_least_current r (store w)); [|reflexivity].
  apply updateSearchResults_loading.
Qed.

Lemma total_or_zero_id t : total_or_zero (Some t) = t.
Proof. unfold total_or_zero. destruct (Z.eqb_spec t 0); congruence. Qed.

Lemma update_if_more_total r w :
  searchResults_total (store (update_if_more r w)) =
  match r with
  | Some resp =>
      match total resp with
      | Some t => Z.max (searchResults_total (store w)) t
      | None => searchResults_total (store w)
      end
  | None => searchResults_total (store w)
  end.
Proof.
  unfold update_if_more, at_least_current.
  destruct r as [[[t|] m]|]; cbn [total]; try reflexivity.
  destruct (Z.leb_spec (searchResults_total (store w)) t).
  - destruct m; cbn -[total_or_zero]; rewrite total_or_zero_id; lia.
  - lia.
Qed.

Lemma update_if_more_requests r w : requests (update_if_more r w) = requests w.
Proof. unfold update_if_more. destruct (at_least_current r (store w)); reflexivity. Qed.

Lemma startSecondAllSearch_requests t w : requests (startSecondAllSearch t w) = requests w.
Proof. unfold startSecondAllSearch. destruct (lastSearchParams (store w)); reflexivity. Qed.

Lemma startThirdAllSearch_requests t w : requests (startThirdAllSearch t w) = requests w.
Proof. unfold startThirdAllSearch. destruct (lastSearchParams (store w)); reflexivity. Qed.

(** ** Timers once handed out *)

Lemma keeps_refl h w : keeps h w w.
Proof. intros H. split; [exact H | left; reflexivity]. Qed.

Lemma keeps_trans h w1 w2 w3 : keeps h w1 w2 -> keeps h w2 w3 -> keeps h w1 w3.
Proof.
  intros H12 H23 H1. destruct (H12 H1) as [H2 E12]. destruct (H23 H2) as [H3 E23].
  split; [exact H3|]. destruct E23 as [E23|E23]; [|right; exact E23].
  rewrite E23. exact E12.
Qed.

Lemma keeps_same h w w' :
  timers w' = timers w -> next_timer w' = next_timer w -> keeps h w w'.
Proof. intros Ht Hn H. rewrite Ht, Hn. split; [exact H | left; reflexivity]. Qed.

Lemma keeps_on_store h f w : keeps h w (on_store f w).
Proof. apply keeps_same; reflexivity. Qed.

Lemma keeps_search h p k w : keeps h w (search p k w).
Proof. apply keeps_same; reflexivity. Qed.

Lemma keeps_stopUpdate h w : keeps h w (stopUpdate w).
Proof.
  intros H. rewrite stopUpdate_next_timer, stopUpdate_timers. split; [exact H|].
  case_decide; [right | left]; reflexivity.
Qed.

Lemma keeps_setTimeout h cb d w : keeps h w (snd (setTimeout cb d w)).
Proof.
  intros H. cbn. split; [lia|]. left. apply lookup_insert_ne. lia.
Qed.

Lemma keeps_clearTimeout h h' w : keeps h w (clearTimeout h' w).
Proof.
  intros H. cbn. split; [exact H|]. rewrite lookup_delete.
  case_decide; [right | left]; reflexivity.
Qed.

Lemma keeps_update_if_more h r w : keeps h w (update_if_more r w).
Proof.
  unfold update_if_more. destruct (at_least_current r (store w));
    [apply keeps_on_store | apply keeps_refl].
Qed.

Lemma keeps_startSecondAllSearch h t w : keeps h w (startSecondAllSearch t w).
Proof.
  unfold startSecondAllSearch. destruct (lastSearchParams (store w)); [|apply keeps_refl].
  intros H. cbn. split; [lia|]. left. apply lookup_insert_ne. lia.
Qed.

Lemma keeps_startThirdAllSearch h t w : keeps h w (startThirdAllSearch t w).
Proof.
  unfold startThirdAllSearch. destruct (lastSearchParams (store w)); [|apply keeps_refl].
  intros H. cbn. split; [lia|]. left. apply lookup_insert_ne. lia.
Qed.

Ltac keeps_step_tac :=
  first [ apply keeps_on_store | apply keeps_search | apply keeps_stopUpdate
        | apply keeps_update_if_more | apply keeps_startSecondAllSearch
        | apply keeps_startThirdAllSearch ].

Ltac keeps_tac :=
  cbv zeta;
  repeat first [ apply keeps_refl | keeps_step_tac
               | eapply keeps_trans; [| keeps_step_tac ] ].

Lemma keeps_resume h k o w : keeps h w (resume k o w).
Proof.
  destruct k, o as [|r]; cbn [resume]; try destruct (has_total r); keeps_tac.
Qed.

Lemma keeps_call h cb w : keeps h w (call cb w).
Proof.
  destruct cb; cbn [call];
    try destruct (loading (store w)); try destruct (lastSearchParams (store w));
    keeps_tac.
Qed.

Lemma keeps_handleSearch h p w : keeps h w (handleSearch p w).
Proof.
  unfold handleSearch.
  eapply keeps_trans; [|apply keeps_setTimeout].
  eapply keeps_trans; [|apply keeps_search].
  repeat (eapply keeps_trans; [|apply keeps_on_store]).
  apply keeps_stopUpdate.
Qed.

Lemma keeps_step h w e w' : step w e = Some w' -> keeps h w w'.
Proof.
  destruct e as [p|id o|h'|ms| |]; cbn [step].
  - intros [= <-]. apply keeps_handleSearch.
  - destruct (requests w !! id) as [[p k]|]; [|discriminate].
    intros [= <-]. eapply keeps_trans; [|apply keeps_resume].
    apply keeps_same; reflexivity.
  - destruct (timers w !! h') as [[due cb]|]; [|discriminate].
    destruct (due <=? now w); [|discriminate].
    intros [= <-]. eapply keeps_trans; [apply keeps_clearTimeout | apply keeps_call].
  - destruct (0 <=? ms); [|discriminate]. intros [= <-]. apply keeps_same; reflexivity.
  - intros [= <-]. unfold resetToInitial.
    eapply keeps_trans; [apply keeps_stopUpdate | apply keeps_on_store].
  - intros [= <-]. apply keeps_stopUpdate.
Qed.

Lemma keeps_run h es : forall w w', run w es = Some w' -> keeps h w w'.
Proof.
  induction es as [|e es IH]; intros w w'; cbn [run].
  - intros [= <-]. apply keeps_refl.
  - destruct (step w e) as [w1|] eqn:E; [|discriminate].
    intros Hrun. eapply keeps_trans; [eapply keeps_step; exact E | apply IH; exact Hrun].
Qed.

(** A timer that is pending with due time [due] cannot run before [due]. *)
Lemma pending_fires_no_earlier w h due cb :
  (h < next_timer w)%positive ->
  timers w !! h = Some (due, cb) ->
  fires_no_earlier w h due.
Proof.
  intros Hlt Hw es w1 w2 Hrun Hfire.
  destruct (keeps_run h es w w1 Hrun Hlt) as [_ [E|E]];
    cbn [step] in Hfire; rewrite E in Hfire; [|discriminate].
  rewrite Hw in Hfire. destruct (Z.leb_spec due (now w1)); [assumption | discriminate].
Qed.

(** A timer that was handed out and is no longer pending never runs. *)
Lemma gone_never_fires w h :
  (h < next_timer w)%positive -> timers w !! h = None -> never_fires w h.
Proof.
  intros Hlt Hw es w1 Hrun.
  destruct (keeps_run h es w w1 Hrun Hlt) as [_ [E|E]];
    cbn [step]; rewrite E; [rewrite Hw|]; reflexivity.
Qed.

(** ** stopUpdate *)

(** C10.  [stopUpdate] leaves the three timer handles [null] and the flags
    [isUpdating] and [isActivelySearching] false; it does not touch
    [loading], the displayed total and category map, [searchTime] or
    [updateCount]; a second call changes nothing. *)
Theorem stopUpdate_frame_idempotent (w : World) :
  let s := store w in
  let s' := store (stopUpdate w) in
  updateTimer s' = None /\
  secondSearchTimeout s' = None /\
  thirdSearchTimeout s' = None /\
  isUpdating s' = false /\
  isActivelySearching s' = false /\
  loading s' = loading s /\
  searchResults_total s' = searchResults_total s /\
  searchResults_mergedResults s' = searchResults_mergedResults s /\
  searchTime s' = searchTime s /\
  updateCount s' = updateCount s /\
  stopUpdate (stopUpdate w) = stopUpdate w.
Proof.
  destruct w as [s n tm nt rq nr];
    destruct s as [? ? ? ? ? ? [a|] [b|] [c|] ? ? ? ?]; cbn;
    repeat split; reflexivity.
Qed.

(** ** The two delays *)

Lemma startSecondAllSearch_timer t p w :
  lastSearchParams (store w) = Some p ->
  secondSearchTimeout (store (startSecondAllSearch t w)) = Some (next_timer w) /\
  timers (startSecondAllSearch t w) !! next_timer w =
    Some (now w + delayForSecondSearch (now w) t,
          executeSecondAllSearch (with_src "all" p)) /\
  next_timer (startSecondAllSearch t w) = Pos.succ (next_timer w).
Proof.
  intros H. unfold startSecondAllSearch. rewrite H. cbn.
  repeat split. apply lookup_insert_eq.
Qed.

Lemma startThirdAllSearch_timer t p w :
  lastSearchParams (store w) = Some p ->
  thirdSearchTimeout (store (startThirdAllSearch t w)) = Some (next_timer w) /\
  timers (startThirdAllSearch t w) !! next_timer w =
    Some (now w + delayForThirdSearch (now w) t,
          executeThirdAllSearch (with_src "all" p)) /\
  next_timer (startThirdAllSearch t w) = Pos.succ (next_timer w).
Proof.
  intros H. unfold startThirdAllSearch. rewrite H. cbn.
  repeat split. apply lookup_insert_eq.
Qed.

(** C5.  With a search recorded in [lastSearchParams], the second ALL
    search is put on a timer with delay [max(0, 2000 - (now - tB))] and the
    third with delay [max(0, 3000 - (now - tC))].  Whatever happens next,
    the timer does not run before [tB + 2000] (resp. [tC + 3000]), and
    when that much time has passed already it can run at once. *)
Theorem refinement_delays (w : World) (p : SearchParams) (t : Z) :
  lastSearchParams (store w) = Some p ->
  t <= now w ->
  (let w' := startSecondAllSearch t w in
   let h := next_timer w in
   secondSearchTimeout (store w') = Some h /\
   timers w' !! h =
     Some (now w + Z.max 0 (2000 - (now w - t)),
           executeSecondAllSearch (with_src "all" p)) /\
   fires_no_earlier w' h (t + 2000) /\
   (2000 <= now w - t -> is_Some (step w' (Fire h)))) /\
  (let w' := startThirdAllSearch t w in
   let h := next_timer w in
   thirdSearchTimeout (store w') = Some h /\
   timers w' !! h =
     Some (now w + Z.max 0 (3000 - (now w - t)),
           executeThirdAllSearch (with_src "all" p)) /\
   fires_no_earlier w' h (t + 3000) /\
   (3000 <= now w - t -> is_Some (step w' (Fire h)))).
Proof.
  intros Hp Ht. split; cbn zeta.
  - destruct (startSecondAllSearch_timer t p w Hp) as (Hh & Htm & Hn).
    unfold delayForSecondSearch in Htm. repeat split; try assumption.
    + intros es w1 w2 Hrun Hfire.
      assert (now w + Z.max 0 (2000 - (now w - t)) <= now w1); [|lia].
      eapply pending_fires_no_earlier; [|exact Htm|exact Hrun|exact Hfire].
      rewrite Hn. lia.
    + intros Hgap. cbn [step]. rewrite Htm.
      assert (E : now (startSecondAllSearch t w) = now w).
      { unfold startSecondAllSearch. rewrite Hp. reflexivity. }
      rewrite E. destruct (Z.leb_spec (now w + Z.max 0 (2000 - (now w - t))) (now w));
        [eexists; reflexivity | lia].
  - destruct (startThirdAllSearch_timer t p w Hp) as (Hh & Htm & Hn).
    unfold delayForThirdSearch in Htm. repeat split; try assumption.
    + intros es w1 w2 Hrun Hfire.
      assert (now w + Z.max 0 (3000 - (now w - t)) <= now w1); [|lia].
      eapply pending_fires_no_earlier; [|exact Htm|exact Hrun|exact Hfire].
      rewrite Hn. lia.
    + intros Hgap. cbn [step]. rewrite Htm.
      assert (E : now (startThirdAllSearch t w) = now w).
      { unfold startThirdAllSearch. rewrite Hp. reflexivity. }
      rewrite E. destruct (Z.leb_spec (now w + Z.max 0 (3000 - (now w - t))) (now w));
        [eexists; reflexivity | lia].
Qed.

Lemma refinement_delays_witness :
  lastSearchParams (store (Ex.after Ex.tg_published)) = Some Ex.foo /\
  0 <= now (Ex.after Ex.tg_published) /\
  fires_no_earlier (startSecondAllSearch 0 (Ex.after Ex.tg_published))
    (next_timer (Ex.after Ex.tg_published)) (0 + 2000).
Proof.
  split; [reflexivity|]. split; [vm_compute; discriminate|].
  destruct (refinement_delays (Ex.after Ex.tg_published) Ex.foo 0) as [[_ [_ [H _]]] _].
  - reflexivity.
  - vm_compute. discriminate.
  - exact H.
Defined.

(** ** handleSearch *)

Lemma handleSearch_requests p w :
  requests (handleSearch p w) =
  <[next_request w := (with_src "tg" p, AfterTg (now w) (with_src "all" p))]> (requests w).
Proof.
  destruct w as [s n tm nt rq nr];
    destruct s as [? ? ? ? ? ? [a|] [b|] [c|] ? ? ? ?]; reflexivity.
Qed.

Lemma handleSearch_next_request p w :
  next_request (handleSearch p w) = Pos.succ (next_request w).
Proof.
  destruct w as [s n tm nt rq nr];
    destruct s as [? ? ? ? ? ? [a|] [b|] [c|] ? ? ? ?]; reflexivity.
Qed.

Lemma handleSearch_timers p w :
  timers (handleSearch p w) =
  <[next_timer w := (now w + 5000, loadingTimeout)]> (timers (stopUpdate w)) /\
  next_timer (handleSearch p w) = Pos.succ (next_timer w).
Proof.
  destruct w as [s n tm nt rq nr];
    destruct s as [? ? ? ? ? ? [a|] [b|] [c|] ? ? ? ?]; split; reflexivity.
Qed.

Lemma handleSearch_store p w :
  loading (store (handleSearch p w)) = true /\
  shown (handleSearch p w) = (0, []) /\
  lastSearchParams (store (handleSearch p w)) = Some p /\
  keyword (store (handleSearch p w)) = kw p /\
  now (handleSearch p w) = now w.
Proof.
  destruct w as [s n tm nt rq nr];
    destruct s as [? ? ? ? ? ? [a|] [b|] [c|] ? ? ? ?]; repeat split; reflexivity.
Qed.

(** ** Responses without a total, responses without a category map *)

Lemma no_total_not_at_least r s : has_total r = false -> at_least_current r s = false.
Proof.
  unfold has_total, at_least_current.
  destruct r as [[[t|] m]|]; cbn; congruence.
Qed.

Lemma update_if_more_shown_no_total r w :
  has_total r = false -> shown (update_if_more r w) = shown w.
Proof.
  intros H. unfold update_if_more. rewrite (no_total_not_at_least r _ H). reflexivity.
Qed.

Lemma resume_no_total k o w :
  no_total o = true -> shown (resume k o w) = shown w.
Proof.
  intros H. destruct k, o as [|r]; cbn [resume no_total] in *;
    try apply negb_true_iff in H; try rewrite H;
    rewrite ?startSecondAllSearch_shown, ?startThirdAllSearch_shown,
      ?stopUpdate_shown, ?update_if_more_shown_no_total by assumption;
    reflexivity.
Qed.

Lemma updateSearchResults_shown r s :
  (searchResults_total (updateSearchResults (Some r) s),
   searchResults_mergedResults (updateSearchResults (Some r) s)) =
  (total_or_zero (total r), published_map r).
Proof. unfold updateSearchResults, published_map. destruct (merged_by_type r); reflexivity. Qed.

Lemma resume_published k r w :
  publishes k r (store w) = true ->
  shown (resume k (Resolved (Some r)) w) = (total_or_zero (total r), published_map r).
Proof.
  intros Hp. unfold publishes in Hp.
  destruct k; cbn [resume guarded] in *; unfold update_if_more; rewrite Hp;
    rewrite ?startSecondAllSearch_shown, ?startThirdAllSearch_shown, ?stopUpdate_shown;
    unfold shown; cbn [store on_store search]; apply updateSearchResults_shown.
Qed.

Lemma resume_not_published k r w :
  publishes k r (store w) = false ->
  shown (resume k (Resolved (Some r)) w) = shown w.
Proof.
  intros Hp. unfold publishes in Hp.
  destruct k; cbn [resume guarded] in *; unfold update_if_more; rewrite Hp;
    rewrite ?startSecondAllSearch_shown, ?startThirdAllSearch_shown, ?stopUpdate_shown;
    reflexivity.
Qed.

Lemma step_Settle w id o w' :
  step w (Settle id o) = Some w' ->
  exists q k, requests w !! id = Some (q, k) /\ w' = resume k o (take_request id w).
Proof.
  cbn [step]. destruct (requests w !! id) as [[q k]|]; [|discriminate].
  intros [= <-]. eauto.
Qed.

(** An example of a response that has a total and no category map: it is
    published as any other, and the categories on display are gone. *)
Lemma missing_map_clears_display :
  shown (Ex.after Ex.tg_published) = (5, [("aliyun", ["a"])]) /\
  option_map shown (step (Ex.after Ex.tg_published) (Settle 2 (Ex.no_map 10)))
    = Some (10, []).
Proof. split; vm_compute; reflexivity. Qed.

(** C4.  A settled request that brings no total (a rejection, [null], a
    response without [total]) leaves the displayed total and category map
    as they are.  A response that has a total and no [merged_by_type] is
    not set aside: when the phase's test lets it through, its total is
    displayed and the category map becomes empty; otherwise the display is
    unchanged. *)
Theorem malformed_response (w w' : World) (id : positive) (q : SearchParams)
    (k : Continuation) (o : Outcome) :
  requests w !! id = Some (q, k) ->
  step w (Settle id o) = Some w' ->
  (no_total o = true -> shown w' = shown w) /\
  (forall r, o = Resolved (Some r) -> merged_by_type r = None ->
     shown w' =
     if publishes k r (store w) then (total_or_zero (total r), []) else shown w).
Proof.
  intros Hreq Hstep. apply step_Settle in Hstep as (q' & k' & Hreq' & ->).
  rewrite Hreq in Hreq'. injection Hreq' as <- <-. split.
  - intros Hno. apply (resume_no_total k o (take_request id w) Hno).
  - intros r -> Hm.
    destruct (publishes k r (store w)) eqn:Hp.
    + rewrite (resume_published k r (take_request id w) Hp).
      unfold published_map. rewrite Hm. reflexivity.
    + apply (resume_not_published k r (take_request id w) Hp).
Qed.

Lemma malformed_response_witness :
  requests (Ex.after Ex.tg_published) !! 2%positive
    = Some (with_src "all" Ex.foo, AfterFirstAll) /\
  shown (resume AfterFirstAll (Ex.no_map 10)
           (take_request 2 (Ex.after Ex.tg_published))) = (10, []).
Proof.
  split; [vm_compute; reflexivity|].
  refine (proj2 (malformed_response (Ex.after Ex.tg_published) _ 2
            (with_src "all" Ex.foo) AfterFirstAll (Ex.no_map 10) _ _) _ eq_refl eq_refl).
  - vm_compute; reflexivity.
  - vm_compute; reflexivity.
Defined.

(** ** The TG search fails *)

Lemma resume_AfterTg_no_total t allParams o w :
  no_total o = true ->
  resume (AfterTg t allParams) o w =
  search allParams AfterFirstAllFallback (on_store (set_loading false) w).
Proof.
  destruct o as [|r]; cbn [no_total resume]; [reflexivity|].
  intros H. apply negb_true_iff in H. rewrite H. reflexivity.
Qed.

(** C8.  When the TG search is rejected or answers without a total,
    nothing is displayed for it (the display stays empty), [loading] is
    switched off, and the first ALL search is issued all the same.  When
    that one then answers with total [t], [loading] is still off and the
    displayed total is [t]. *)
Theorem tg_failure_falls_back (w : World) (p : SearchParams) (oA : Outcome)
    (ms : Z) (r : SearchResponse) (t : Z) :
  no_total oA = true ->
  0 <= ms ->
  total r = Some t ->
  let a := next_request w in
  let b := Pos.succ a in
  exists w2 w3,
    run w [Search p; Settle a oA] = Some w2 /\
    shown w2 = (0, []) /\
    loading (store w2) = false /\
    requests w2 !! b = Some (with_src "all" p, AfterFirstAllFallback) /\
    run w2 [Tick ms; Settle b (Resolved (Some r))] = Some w3 /\
    loading (store w3) = false /\
    searchResults_total (store w3) = t.
Proof.
  intros HA Hms Ht a b.
  pose proof (handleSearch_requests p w) as Hrq.
  pose proof (handleSearch_next_request p w) as Hnr.
  destruct (handleSearch_store p w) as (_ & Hshown & _).
  assert (Hs : step w (Search p) = Some (handleSearch p w)) by reflexivity.
  generalize dependent (handleSearch p w). intros w1 Hrq Hnr Hshown Hs.
  set (w2 := search (with_src "all" p) AfterFirstAllFallback
               (on_store (set_loading false) (take_request a w1))).
  assert (Hb : requests w2 !! b = Some (with_src "all" p, AfterFirstAllFallback)).
  { subst w2. cbn [requests search on_store take_request next_request].
    rewrite Hnr. apply lookup_insert_eq. }
  set (w3 := resume AfterFirstAllFallback (Resolved (Some r))
               (take_request b (advance ms w2))).
  exists w2, w3. split; [|split; [|split; [|split; [|split; [|split]]]]].
  - cbn [run]. rewrite Hs. cbn [step]. rewrite Hrq. subst a. rewrite lookup_insert_eq.
    rewrite (resume_AfterTg_no_total _ _ _ _ HA). reflexivity.
  - exact Hshown.
  - reflexivity.
  - exact Hb.
  - cbn [run step]. destruct (Z.leb_spec 0 ms) as [_|]; [|lia].
    cbn [requests advance]. rewrite Hb. reflexivity.
  - subst w3. cbn [resume has_total]. rewrite Ht.
    rewrite startSecondAllSearch_loading. cbn [store on_store].
    rewrite updateSearchResults_loading. reflexivity.
  - subst w3. cbn [resume has_total]. rewrite Ht.
    rewrite startSecondAllSearch_total. cbn [store on_store].
    rewrite updateSearchResults_total, Ht. apply total_or_zero_id.
Qed.

Lemma tg_failure_falls_back_witness :
  exists w2 w3,
    run initial_world [Search Ex.foo; Settle 1 Rejected] = Some w2 /\
    run w2 [Tick 300; Settle 2 (Ex.ok 50 [])] = Some w3 /\
    loading (store w3) = false /\
    searchResults_total (store w3) = 50.
Proof.
  destruct (tg_failure_falls_back initial_world Ex.foo Rejected 300
              {| total := Some 50; merged_by_type := Some [] |} 50)
    as (w2 & w3 & H1 & _ & _ & _ & H2 & Hl & Ht).
  - reflexivity.
  - lia.
  - reflexivity.
  - exists w2, w3. split; [exact H1|]. split; [exact H2|]. split; [exact Hl | exact Ht].
Defined.

(** ** The loading flag *)

Lemma resume_loading k o w :
  loading (store (resume k o w)) =
  match k with
  | AfterTg _ _ => false
  | _ => loading (store w)
  end.
Proof.
  destruct k, o as [|r]; cbn [resume];
    try destruct (has_total r);
    rewrite ?startSecondAllSearch_loading, ?startThirdAllSearch_loading,
      ?stopUpdate_store, ?update_if_more_loading;
    cbn [store on_store search loading set_loading set_searchTime
         set_isActivelySearching set_isUpdating set_thirdSearchTimeout
         set_secondSearchTimeout set_updateTimer];
    rewrite ?update_if_more_loading, ?updateSearchResults_loading; reflexivity.
Qed.

Lemma call_loading cb w :
  loading (store (call cb w)) =
  match cb with
  | loadingTimeout => false
  | _ => loading (store w)
  end.
Proof.
  destruct cb; cbn [call].
  - destruct (loading (store w)) eqn:E; [reflexivity | exact E].
  - destruct (lastSearchParams (store w)); [reflexivity|].
    rewrite stopUpdate_store. reflexivity.
  - destruct (lastSearchParams (store w)); [reflexivity|].
    rewrite stopUpdate_store. reflexivity.
Qed.

(** An example: "bar" is searched 4 s after "foo"; one second later the
    timeout started by "foo" runs and switches [loading] off, while the TG
    request of "bar" is in flight and the timeout of "bar" is 4 s away. *)
Lemma stale_timeout_clears_loading :
  let w := Ex.after Ex.two_searches in
  loading (store w) = true /\
  keyword (store w) = "bar" /\
  now w = 5000 /\
  requests w !! 3%positive = Some (with_src "tg" Ex.bar, AfterTg 4000 (with_src "all" Ex.bar)) /\
  timers w !! 1%positive = Some (5000, loadingTimeout) /\
  timers w !! 2%positive = Some (9000, loadingTimeout) /\
  option_map (fun w' => loading (store w')) (step w (Fire 1)) = Some false.
Proof. cbv zeta. repeat split; vm_compute; reflexivity. Qed.

(** C7.  [loading] after one turn of the event loop: a search switches it
    on; it is switched off by the settling of any TG request (whichever
    search issued it, whatever the outcome), by any loading timeout that
    runs (whichever search started it), and by a reset; every other event
    leaves it as it is. *)
Theorem loading_flag (w w' : World) (e : Event) :
  step w e = Some w' ->
  loading (store w') =
  match e with
  | Search _ => true
  | Settle id _ =>
      match requests w !! id with
      | Some (_, AfterTg _ _) => false
      | _ => loading (store w)
      end
  | Fire h =>
      match timers w !! h with
      | Some (_, loadingTimeout) => false
      | _ => loading (store w)
      end
  | ResetToInitial => false
  | Tick _ | Unmounted => loading (store w)
  end.
Proof.
  destruct e as [p|id o|h|ms| |]; cbn [step].
  - intros [= <-]. apply handleSearch_store.
  - destruct (requests w !! id) as [[q k]|]; [|discriminate].
    intros [= <-]. rewrite resume_loading. destruct k; reflexivity.
  - destruct (timers w !! h) as [[due cb]|]; [|discriminate].
    destruct (due <=? now w); [|discriminate].
    intros [= <-]. rewrite call_loading. destruct cb; reflexivity.
  - destruct (0 <=? ms); [|discriminate]. intros [= <-]. reflexivity.
  - intros [= <-]. unfold resetToInitial. reflexivity.
  - intros [= <-]. rewrite stopUpdate_store. reflexivity.
Qed.

Lemma loading_flag_witness :
  step (Ex.after Ex.two_searches) (Fire 1)
    = Some (call loadingTimeout (clearTimeout 1 (Ex.after Ex.two_searches))) /\
  loading (store (call loadingTimeout (clearTimeout 1 (Ex.after Ex.two_searches)))) = false.
Proof.
  split; [vm_compute; reflexivity|].
  refine (loading_flag (Ex.after Ex.two_searches) _ (Fire 1) _).
  vm_compute; reflexivity.
Defined.

(** ** Failures and the next phase *)

Lemma nothing_new_same w w' :
  timers w' = timers w -> requests w' = requests w -> nothing_new w w'.
Proof. intros Ht Hr. split; intros ? ?; rewrite ?Ht, ?Hr; trivial. Qed.

Lemma nothing_new_trans w1 w2 w3 :
  nothing_new w1 w2 -> nothing_new w2 w3 -> nothing_new w1 w3.
Proof. intros [A B] [C D]. split; eauto. Qed.

Lemma nothing_new_take_request id w : nothing_new w (take_request id w).
Proof.
  split; cbn; [trivial|]. intros i x H. apply lookup_delete_Some in H. apply H.
Qed.

Lemma nothing_new_stopUpdate w : nothing_new w (stopUpdate w).
Proof.
  split.
  - intros h x. rewrite stopUpdate_timers. case_decide; [discriminate | trivial].
  - rewrite stopUpdate_requests. trivial.
Qed.

Lemma nothing_new_update_if_more r w : nothing_new w (update_if_more r w).
Proof.
  unfold update_if_more. destruct (at_least_current r (store w));
    apply nothing_new_same; reflexivity.
Qed.

Lemma sequence_over_stopUpdate w : sequence_over (stopUpdate w).
Proof. unfold sequence_over. rewrite stopUpdate_store. repeat split. Qed.

Lemma updateSearchResults_lastSearchParams r s :
  lastSearchParams (updateSearchResults r s) = lastSearchParams s.
Proof. destruct r as [[t [m|]]|]; reflexivity. Qed.

Lemma update_if_more_lastSearchParams r w :
  lastSearchParams (store (update_if_more r w)) = lastSearchParams (store w).
Proof.
  unfold update_if_more. destruct (at_least_current r (store w)); [|reflexivity].
  apply updateSearchResults_lastSearchParams.
Qed.

Lemma update_if_more_now r w : now (update_if_more r w) = now w.
Proof. unfold update_if_more. destruct (at_least_current r (store w)); reflexivity. Qed.

Lemma update_if_more_next_timer r w : next_timer (update_if_more r w) = next_timer w.
Proof. unfold update_if_more. destruct (at_least_current r (store w)); reflexivity. Qed.

Lemma startSecondAllSearch_scheduled w p n nt :
  lastSearchParams (store w) = Some p -> now w = n -> next_timer w = nt ->
  scheduled (startSecondAllSearch n w) secondSearchTimeout nt (n + 2000)
    (executeSecondAllSearch (with_src "all" p)).
Proof.
  intros Hp <- <-. destruct (startSecondAllSearch_timer (now w) p w Hp) as (A & B & _).
  split; [exact A|]. rewrite B. unfold delayForSecondSearch. do 2 f_equal. lia.
Qed.

Lemma startThirdAllSearch_scheduled w p n nt :
  lastSearchParams (store w) = Some p -> now w = n -> next_timer w = nt ->
  scheduled (startThirdAllSearch n w) thirdSearchTimeout nt (n + 3000)
    (executeThirdAllSearch (with_src "all" p)).
Proof.
  intros Hp <- <-. destruct (startThirdAllSearch_timer (now w) p w Hp) as (A & B & _).
  split; [exact A|]. rewrite B. unfold delayForThirdSearch. do 2 f_equal. lia.
Qed.

(** An example: the second ALL search is rejected.  No third search is on
    a timer, the flags are off, no request is in flight: what is left is
    the loading timeout of the search. *)
Lemma second_failure_ends_sequence :
  let w := Ex.after Ex.second_failed in
  isUpdating (store w) = false /\
  isActivelySearching (store w) = false /\
  thirdSearchTimeout (store w) = None /\
  map_to_list (timers w) = [(1%positive, (5000, loadingTimeout))] /\
  map_to_list (requests w) = [].
Proof. cbv zeta. repeat split; vm_compute; reflexivity. Qed.

(** C2.  What the settling of a request leads to, phase by phase, with a
    search recorded in [lastSearchParams].  The first ALL search is issued
    whatever the TG search brought, and when it was issued after a
    published TG answer the second ALL search is put on a timer 2000 ms
    ahead whether it was fulfilled or rejected.  A failure does end the
    sequence in the other phases: a rejected second ALL search stops the
    updates and schedules nothing, and so does a first ALL search that was
    issued after a TG failure and is rejected or brings no total.  The
    third ALL search ends the sequence whatever its outcome. *)
Theorem failure_and_next_phase (w w' : World) (id : positive) (q p : SearchParams)
    (k : Continuation) (o : Outcome) :
  requests w !! id = Some (q, k) ->
  lastSearchParams (store w) = Some p ->
  step w (Settle id o) = Some w' ->
  match k with
  | AfterTg _ allParams =>
      requests w' !! next_request w =
      Some (allParams, if no_total o then AfterFirstAllFallback else AfterFirstAll)
  | AfterFirstAll =>
      scheduled w' secondSearchTimeout (next_timer w) (now w + 2000)
        (executeSecondAllSearch (with_src "all" p))
  | AfterFirstAllFallback =>
      if no_total o
      then nothing_new w w' /\
           secondSearchTimeout (store w') = secondSearchTimeout (store w) /\
           (o = Rejected -> isActivelySearching (store w') = false)
      else scheduled w' secondSearchTimeout (next_timer w) (now w + 2000)
             (executeSecondAllSearch (with_src "all" p))
  | AfterSecondAll =>
      match o with
      | Resolved _ =>
          scheduled w' thirdSearchTimeout (next_timer w) (now w + 3000)
            (executeThirdAllSearch (with_src "all" p))
      | Rejected => sequence_over w' /\ nothing_new w w'
      end
  | AfterThirdAll => sequence_over w' /\ nothing_new w w'
  end.
Proof.
  intros Hreq Hp Hstep. apply step_Settle in Hstep as (q' & k' & Hreq' & ->).
  rewrite Hreq in Hreq'. injection Hreq' as <- <-.
  pose proof (nothing_new_take_request id w) as Hnew.
  assert (Hp0 : lastSearchParams (store (take_request id w)) = Some p) by exact Hp.
  destruct k as [t0 allParams| | | |]; cbn [resume].
  - destruct o as [|r]; cbn [no_total];
      [|destruct (has_total r); cbn [negb]]; cbn; apply lookup_insert_eq.
  - destruct o as [|r].
    + apply startSecondAllSearch_scheduled; [exact Hp0 | reflexivity | reflexivity].
    + apply startSecondAllSearch_scheduled.
      * rewrite update_if_more_lastSearchParams. exact Hp0.
      * rewrite update_if_more_now. reflexivity.
      * rewrite update_if_more_next_timer. reflexivity.
  - destruct o as [|r]; cbn [no_total].
    + split; [|split; [reflexivity | reflexivity]].
      eapply nothing_new_trans; [exact Hnew | apply nothing_new_same; reflexivity].
    + destruct (has_total r); cbn [negb].
      * apply startSecondAllSearch_scheduled; [|reflexivity|reflexivity].
        cbn [store on_store]. rewrite updateSearchResults_lastSearchParams. exact Hp0.
      * split; [exact Hnew|]. split; [reflexivity | discriminate].
  - destruct o as [|r].
    + split; [apply sequence_over_stopUpdate|].
      eapply nothing_new_trans; [exact Hnew | apply nothing_new_stopUpdate].
    + cbv zeta. rewrite update_if_more_now. apply startThirdAllSearch_scheduled.
      * rewrite update_if_more_lastSearchParams. exact Hp0.
      * rewrite update_if_more_now. reflexivity.
      * rewrite update_if_more_next_timer. reflexivity.
  - destruct o as [|r]; (split; [apply sequence_over_stopUpdate|]).
    + eapply nothing_new_trans; [exact Hnew | apply nothing_new_stopUpdate].
    + eapply nothing_new_trans; [exact Hnew|].
      eapply nothing_new_trans; [apply nothing_new_update_if_more | apply nothing_new_stopUpdate].
Qed.

Lemma failure_and_next_phase_witness :
  requests (Ex.after Ex.second_issued) !! 3%positive
    = Some (with_src "all" Ex.foo, AfterSecondAll) /\
  sequence_over (resume AfterSecondAll Rejected (take_request 3 (Ex.after Ex.second_issued))) /\
  nothing_new (Ex.after Ex.second_issued)
    (resume AfterSecondAll Rejected (take_request 3 (Ex.after Ex.second_issued))).
Proof.
  split; [vm_compute; reflexivity|].
  refine (failure_and_next_phase (Ex.after Ex.second_issued) _ 3
            (with_src "all" Ex.foo) Ex.foo AfterSecondAll Rejected _ _ _).
  - vm_compute; reflexivity.
  - vm_compute; reflexivity.
  - vm_compute; reflexivity.
Defined.

(** ** A new search while a sequence is under way *)

(** An example: "bar" is searched while the first ALL search for "foo" is
    in flight; the answer for "foo" arrives afterwards and is displayed
    under the keyword "bar". *)
Lemma late_answer_is_published :
  let w := Ex.after Ex.superseded in
  keyword (store w) = "bar" /\
  lastSearchParams (store w) = Some Ex.bar /\
  shown w = (0, []) /\
  requests w !! 2%positive = Some (with_src "all" Ex.foo, AfterFirstAll) /\
  option_map shown (step w (Settle 2 Ex.late_answer)) = Some (10, [("quark", ["old"])]) /\
  option_map (fun w' => keyword (store w')) (step w (Settle 2 Ex.late_answer)) = Some "bar".
Proof. cbv zeta. repeat split; vm_compute; reflexivity. Qed.

(** C3.  A new search clears the timers whose handles are held in the
    refs: such a timer, pending or not, never runs afterwards.  The
    requests in flight are left as they are, and nothing sets their
    answers aside: an answer with a total of at least 0 (the total on
    display once the new search has started) is displayed when it
    arrives. *)
Theorem supersession (w : World) (p : SearchParams) :
  (forall h, (h < next_timer w)%positive -> stored_handle w h ->
     never_fires (handleSearch p w) h) /\
  (forall id q k r t,
     id <> next_request w ->
     requests w !! id = Some (q, k) ->
     total r = Some t ->
     0 <= t ->
     exists w',
       step (handleSearch p w) (Settle id (Resolved (Some r))) = Some w' /\
       shown w' = (t, published_map r)).
Proof.
  split.
  - intros h Hlt Hst. destruct (handleSearch_timers p w) as [Ht Hn].
    apply gone_never_fires.
    + rewrite Hn. lia.
    + rewrite Ht, lookup_insert_ne by lia. rewrite stopUpdate_timers.
      case_decide; [reflexivity | contradiction].
  - intros id q k r t Hid Hreq Ht H0.
    destruct (handleSearch_store p w) as (_ & Hshown & _).
    pose proof (handleSearch_requests p w) as Hrq.
    generalize dependent (handleSearch p w). intros w1 Hshown Hrq.
    exists (resume k (Resolved (Some r)) (take_request id w1)). split.
    + cbn [step]. rewrite Hrq, lookup_insert_ne by congruence. rewrite Hreq. reflexivity.
    + rewrite resume_published.
      * rewrite Ht, total_or_zero_id. reflexivity.
      * unfold publishes, at_least_current, has_total. rewrite Ht.
        cbn [store take_request]. unfold shown in Hshown. injection Hshown as -> _.
        destruct (guarded k); [|reflexivity]. apply Z.leb_le. exact H0.
Qed.

Lemma supersession_witness :
  stored_handle (Ex.after Ex.second_pending) 2 /\
  never_fires (handleSearch Ex.bar (Ex.after Ex.second_pending)) 2.
Proof.
  assert (H : stored_handle (Ex.after Ex.second_pending) 2).
  { right; left. vm_compute; reflexivity. }
  split; [exact H|].
  apply (proj1 (supersession (Ex.after Ex.second_pending) Ex.bar)); [|exact H].
  vm_compute; reflexivity.
Defined.

(** ** The displayed total within a sequence *)

Lemma all_guarded_lookup w :
  all_guarded w = true <->
  (forall id q k, requests w !! id = Some (q, k) -> guarded k = true).
Proof.
  unfold all_guarded. rewrite forallb_forall. split.
  - intros H id q k Hl. apply (H (id, (q, k))).
    apply list_elem_of_In, elem_of_map_to_list. exact Hl.
  - intros H [id [q k]] Hin. apply list_elem_of_In, elem_of_map_to_list in Hin.
    cbn. eapply H; eauto.
Qed.

Lemma all_guarded_same w w' :
  requests w' = requests w -> all_guarded w = true -> all_guarded w' = true.
Proof. unfold all_guarded. intros ->. trivial. Qed.

Lemma all_guarded_take_request id w :
  all_guarded w = true -> all_guarded (take_request id w) = true.
Proof.
  rewrite !all_guarded_lookup. intros H i q k Hl. cbn in Hl.
  apply lookup_delete_Some in Hl as [_ Hl]. eauto.
Qed.

Lemma all_guarded_search p k w :
  guarded k = true -> all_guarded w = true -> all_guarded (search p k w) = true.
Proof.
  rewrite !all_guarded_lookup. intros Hk H i q k' Hl. cbn in Hl.
  apply lookup_insert_Some in Hl as [[_ E]|[_ Hl]]; [congruence | eauto].
Qed.

Lemma stopUpdate_total w :
  searchResults_total (store (stopUpdate w)) = searchResults_total (store w).
Proof. rewrite stopUpdate_store. reflexivity. Qed.

(** One event of a sequence: the displayed total becomes the larger of
    itself and the total received, if one was received. *)
Lemma step_within_sequence w e w' :
  all_guarded w = true ->
  within_sequence e = true ->
  step w e = Some w' ->
  all_guarded w' = true /\
  searchResults_total (store w') =
    match received e with
    | Some t => Z.max (searchResults_total (store w)) t
    | None => searchResults_total (store w)
    end.
Proof.
  intros Hg He. destruct e as [p|id o|h|ms| |]; try discriminate He; cbn [step received].
  - destruct (requests w !! id) as [[q k]|] eqn:Hreq; [|discriminate].
    intros [= <-].
    pose proof (proj1 (all_guarded_lookup w) Hg id q k Hreq) as Hk.
    pose proof (all_guarded_take_request id w Hg) as Hg0.
    assert (Ht0 : searchResults_total (store (take_request id w))
                  = searchResults_total (store w)) by reflexivity.
    revert Hg0 Ht0. generalize (take_request id w). intros w0 Hg0 Ht0.
    destruct k; try discriminate Hk; destruct o as [|r]; cbn [resume]; split;
      rewrite ?startSecondAllSearch_total, ?startThirdAllSearch_total, ?stopUpdate_total,
        ?update_if_more_total, ?Ht0;
      try reflexivity;
      try (destruct r as [r|]; reflexivity);
      try (eapply all_guarded_same; [|exact Hg0];
           rewrite ?startSecondAllSearch_requests, ?startThirdAllSearch_requests,
             ?stopUpdate_requests, ?update_if_more_requests; reflexivity).
  - destruct (timers w !! h) as [[due cb]|]; [|discriminate].
    destruct (due <=? now w); [|discriminate].
    intros [= <-].
    assert (Hg0 : all_guarded (clearTimeout h w) = true)
      by (eapply all_guarded_same; [|exact Hg]; reflexivity).
    assert (Ht0 : searchResults_total (store (clearTimeout h w))
                  = searchResults_total (store w)) by reflexivity.
    revert Hg0 Ht0. generalize (clearTimeout h w). intros w0 Hg0 Ht0.
    destruct cb; cbn [call].
    + destruct (loading (store w0)); split; try exact Hg0; exact Ht0.
    + destruct (lastSearchParams (store w0)); split;
        rewrite ?stopUpdate_total; try exact Ht0.
      * apply all_guarded_search; [reflexivity | exact Hg0].
      * eapply all_guarded_same; [|exact Hg0]. apply stopUpdate_requests.
    + destruct (lastSearchParams (store w0)); split;
        rewrite ?stopUpdate_total; try exact Ht0.
      * apply all_guarded_search; [reflexivity | exact Hg0].
      * eapply all_guarded_same; [|exact Hg0]. apply stopUpdate_requests.
  - destruct (0 <=? ms); [|discriminate]. intros [= <-]. split; [|reflexivity].
    eapply all_guarded_same; [|exact Hg]; reflexivity.
  - intros [= <-]. split; [|apply stopUpdate_total].
    eapply all_guarded_same; [|exact Hg]. apply stopUpdate_requests.
Qed.

(** C1.  In a world where every request in flight is one of the guarded
    ALL searches (the TG answer is published, no other search has a TG or
    fall-back request out), and as long as no new search and no reset
    happens: an answer replaces the display exactly when its total is at
    least the displayed one, an equal total included; after any sequence
    of events the displayed total is the largest of the total displayed at
    the start and the totals received; the totals displayed along the way
    never decrease. *)
Theorem displayed_total_monotone (w : World) (es : list Event) (w' : World) :
  all_guarded w = true ->
  forallb within_sequence es = true ->
  run w es = Some w' ->
  searchResults_total (store w') = best_total (searchResults_total (store w)) es /\
  Sorted Z.le (searchResults_total (store w) :: shown_totals w es) /\
  all_guarded w' = true /\
  (forall id q k r t w1,
     requests w !! id = Some (q, k) ->
     total r = Some t ->
     step w (Settle id (Resolved (Some r))) = Some w1 ->
     shown w1 =
     if searchResults_total (store w) <=? t then (t, published_map r) else shown w).
Proof.
  intros Hg Hes Hrun.
  assert (Hfacts :
    searchResults_total (store w') = best_total (searchResults_total (store w)) es /\
    Sorted Z.le (searchResults_total (store w) :: shown_totals w es) /\
    all_guarded w' = true).
  { revert w w' Hg Hes Hrun. induction es as [|e es IH]; intros w w' Hg Hes Hrun.
    - cbn in Hrun. injection Hrun as <-. cbn. split; [reflexivity|]. split; [|exact Hg].
      repeat constructor.
    - cbn [forallb] in Hes. apply andb_true_iff in Hes as [He Hes].
      cbn [run] in Hrun. destruct (step w e) as [w1|] eqn:Hstep; [|discriminate].
      destruct (step_within_sequence w e w1 Hg He Hstep) as [Hg1 Ht1].
      destruct (IH w1 w' Hg1 Hes Hrun) as (Hfin & Hsorted & Hg').
      cbn [shown_totals]. rewrite Hstep.
      split; [|split; [|exact Hg']].
      + rewrite Hfin, Ht1. unfold best_total. cbn [fold_left].
        destruct (received e); reflexivity.
      + constructor; [exact Hsorted|]. constructor.
        rewrite Ht1. destruct (received e); lia. }
  destruct Hfacts as (Hfin & Hsorted & Hg').
  split; [exact Hfin|]. split; [exact Hsorted|]. split; [exact Hg'|].
  intros id q k r t w1 Hreq Ht Hstep.
  apply step_Settle in Hstep as (q' & k' & Hreq' & ->).
  rewrite Hreq in Hreq'. injection Hreq' as <- <-.
  pose proof (proj1 (all_guarded_lookup w) Hg id q k Hreq) as Hk.
  destruct (searchResults_total (store w) <=? t) eqn:Hle.
  + rewrite resume_published.
    * rewrite Ht, total_or_zero_id. reflexivity.
    * unfold publishes, at_least_current. rewrite Hk, Ht. exact Hle.
  + apply (resume_not_published k r (take_request id w)).
    unfold publishes, at_least_current. rewrite Hk, Ht. exact Hle.
Qed.

Lemma displayed_total_monotone_witness :
  run (Ex.after Ex.tg_published) Ex.refinements
    = Some (Ex.after (Ex.tg_published ++ Ex.refinements)%list) /\
  searchResults_total (store (Ex.after (Ex.tg_published ++ Ex.refinements)%list)) = 7 /\
  Sorted Z.le (5 :: shown_totals (Ex.after Ex.tg_published) Ex.refinements).
Proof.
  assert (H : run (Ex.after Ex.tg_published) Ex.refinements
              = Some (Ex.after (Ex.tg_published ++ Ex.refinements)%list))
    by (vm_compute; reflexivity).
  split; [exact H|].
  destruct (displayed_total_monotone (Ex.after Ex.tg_published) Ex.refinements
              (Ex.after (Ex.tg_published ++ Ex.refinements)%list))
    as (Hfin & Hsorted & _).
  - vm_compute; reflexivity.
  - reflexivity.
  - exact H.
  - split; [exact Hfin | exact Hsorted].
Defined.

(** ** Sorting by position, rebuilding the object *)

Section SortByRank.
Context {V : Type} (rank : V -> Z).

Lemma insert_by_Permutation (c : V -> V -> Z) x l :
  Permutation (Entries.insert_by c x l) (x :: l).
Proof.
  induction l as [|y l IH]; cbn [Entries.insert_by]; [reflexivity|].
  destruct (0 <? c x y); [|reflexivity].
  etransitivity; [apply perm_skip, IH | apply perm_swap].
Qed.

Lemma sort_by_Permutation (c : V -> V -> Z) l :
  Permutation (Entries.sort_by c l) l.
Proof.
  induction l as [|x l IH]; cbn [Entries.sort_by]; [reflexivity|].
  etransitivity; [apply insert_by_Permutation | apply perm_skip, IH].
Qed.

Lemma insert_by_sorted x l :
  StronglySorted (fun a b => rank a <= rank b) l ->
  StronglySorted (fun a b => rank a <= rank b)
    (Entries.insert_by (fun a b => rank a - rank b) x l).
Proof.
  induction l as [|y l IH]; intros Hs; cbn [Entries.insert_by].
  - constructor; constructor.
  - inversion Hs as [|? ? Hl Hy]; subst.
    destruct (Z.ltb_spec 0 (rank x - rank y)).
    + constructor; [apply IH; exact Hl|].
      apply List.Forall_forall. intros z Hz.
      apply (Permutation_in _ (insert_by_Permutation _ x l)) in Hz.
      destruct Hz as [<-|Hz]; [lia|].
      rewrite List.Forall_forall in Hy. apply Hy. exact Hz.
    + constructor; [exact Hs|]. constructor; [lia|].
      eapply List.Forall_impl; [|exact Hy]. cbn. intros; lia.
Qed.

Lemma sort_by_sorted l :
  StronglySorted (fun a b => rank a <= rank b)
    (Entries.sort_by (fun a b => rank a - rank b) l).
Proof.
  induction l as [|x l IH]; cbn [Entries.sort_by]; [constructor|].
  apply insert_by_sorted, IH.
Qed.

Lemma insert_by_filter r x l :
  List.filter (fun e => rank e =? r) (Entries.insert_by (fun a b => rank a - rank b) x l) =
  List.filter (fun e => rank e =? r) (x :: l).
Proof.
  induction l as [|y l IH]; cbn [Entries.insert_by]; [reflexivity|].
  destruct (Z.ltb_spec 0 (rank x - rank y)); [|reflexivity].
  cbn [List.filter] in *. rewrite IH.
  destruct (Z.eqb_spec (rank y) r), (Z.eqb_spec (rank x) r); try reflexivity. lia.
Qed.

Lemma sort_by_filter r l :
  List.filter (fun e => rank e =? r) (Entries.sort_by (fun a b => rank a - rank b) l) =
  List.filter (fun e => rank e =? r) l.
Proof.
  induction l as [|x l IH]; cbn [Entries.sort_by]; [reflexivity|].
  rewrite insert_by_filter. cbn [List.filter]. rewrite IH. reflexivity.
Qed.

(** Inserting in front of a sorted list whose head is not smaller. *)
Lemma sort_by_sorted_id l :
  StronglySorted (fun a b => rank a <= rank b) l ->
  Entries.sort_by (fun a b => rank a - rank b) l = l.
Proof.
  induction 1 as [|x l Hl IH Hx]; cbn [Entries.sort_by]; [reflexivity|].
  rewrite IH. destruct l as [|y l]; [reflexivity|]. cbn [Entries.insert_by].
  inversion Hx; subst. destruct (Z.ltb_spec 0 (rank x - rank y)); [lia | reflexivity].
Qed.

Lemma sorted_before l a b :
  StronglySorted (fun a b => rank a <= rank b) l ->
  In a l -> In b l -> rank a < rank b ->
  exists l1 l2 l3, l = (l1 ++ a :: l2 ++ b :: l3)%list.
Proof.
  induction 1 as [|x l Hl IH Hx]; intros Ha Hb Hlt; [destruct Ha|].
  rewrite List.Forall_forall in Hx.
  destruct Ha as [->|Ha], Hb as [->|Hb].
  - lia.
  - apply in_split in Hb as (l2 & l3 & ->). exists [], l2, l3. reflexivity.
  - specialize (Hx a Ha). cbn in Hx. lia.
  - destruct (IH Ha Hb Hlt) as (l1 & l2 & l3 & ->). exists (x :: l1), l2, l3. reflexivity.
Qed.

End SortByRank.

Section Lists.
Context {A : Type}.

Lemma StronglySorted_remove_middle (R : A -> A -> Prop) l1 x l2 :
  StronglySorted R (l1 ++ x :: l2)%list -> StronglySorted R (l1 ++ l2)%list.
Proof.
  induction l1 as [|a l1 IH]; cbn [app]; intros H; inversion H as [|? ? Hs Hf]; subst.
  - exact Hs.
  - constructor; [apply IH; exact Hs|].
    rewrite List.Forall_forall in *. intros y Hy. apply Hf.
    apply in_app_or in Hy as [Hy|Hy]; apply in_or_app; [left | right; right]; exact Hy.
Qed.

Lemma Permutation_filter (f : A -> bool) l l' :
  Permutation l l' -> Permutation (List.filter f l) (List.filter f l').
Proof.
  induction 1 as [|x l l' _ IH|x y l|l l' l'' _ IH1 _ IH2]; cbn [List.filter].
  - constructor.
  - destruct (f x); [apply perm_skip|]; exact IH.
  - destruct (f x), (f y); try reflexivity. apply perm_swap.
  - etransitivity; eassumption.
Qed.

Lemma filter_comm (f g : A -> bool) l :
  List.filter f (List.filter g l) = List.filter g (List.filter f l).
Proof.
  induction l as [|x l IH]; [reflexivity|]. cbn [List.filter].
  destruct (g x) eqn:Eg, (f x) eqn:Ef; cbn [List.filter]; rewrite ?Eg, ?Ef, IH; reflexivity.
Qed.

End Lists.

Section ToObject.
Context {V : Type}.

Local Abbreviation assign_entry :=
  (fun (acc : list (string * V)) (e : string * V) => Entries.assign (fst e) (snd e) acc).
Local Abbreviation own :=
  (fun e : string * V => negb (String.eqb (fst e) Entries.proto)).

Lemma define_fresh k (v : V) acc :
  ~ In k (map fst acc) -> Entries.define k v acc = (acc ++ [(k, v)])%list.
Proof.
  induction acc as [|[k' v'] acc IH]; cbn [Entries.define map fst In app]; [reflexivity|].
  intros H. destruct (String.eqb_spec k' k) as [->|_]; [tauto|].
  rewrite IH by tauto. reflexivity.
Qed.

Lemma define_keys_In k (v : V) acc :
  In k (map fst acc) -> map fst (Entries.define k v acc) = map fst acc.
Proof.
  induction acc as [|[k' v'] acc IH]; cbn [Entries.define map fst In]; [intros []|].
  intros H. destruct (String.eqb_spec k' k) as [->|Hne]; [reflexivity|].
  cbn [map fst]. rewrite IH; [reflexivity|]. destruct H; [contradiction | assumption].
Qed.

Lemma get_define k' k (v : V) acc :
  Entries.get k' (Entries.define k v acc) =
  if String.eqb k k' then Some v else Entries.get k' acc.
Proof.
  induction acc as [|[k0 v0] acc IH]; cbn [Entries.define Entries.get]; [reflexivity|].
  destruct (String.eqb_spec k0 k) as [->|Hne]; cbn [Entries.get].
  - destruct (String.eqb k k'); reflexivity.
  - rewrite IH. destruct (String.eqb_spec k0 k') as [->|], (String.eqb_spec k k') as [->|];
      try reflexivity. contradiction.
Qed.

(** Reading the object built from [l] on top of [acc]: the last entry of
    [l] under the key wins, the setter key reads what [acc] had. *)
Lemma get_fold k (l acc : list (string * V)) :
  Entries.get k (fold_left assign_entry l acc) =
  if String.eqb k Entries.proto then Entries.get k acc
  else match Entries.last_value k l with
       | Some v => Some v
       | None => Entries.get k acc
       end.
Proof.
  revert acc. induction l as [|[k0 v0] l IH]; intros acc;
    cbn [fold_left Entries.last_value fst snd].
  - destruct (String.eqb k Entries.proto); reflexivity.
  - rewrite IH. unfold Entries.assign.
    destruct (String.eqb_spec k Entries.proto) as [->|Hk].
    + destruct (String.eqb_spec k0 Entries.proto) as [->|Hk0]; [reflexivity|].
      rewrite get_define. destruct (String.eqb_spec k0 Entries.proto); [contradiction|].
      reflexivity.
    + destruct (Entries.last_value k l); [reflexivity|].
      destruct (String.eqb_spec k0 Entries.proto) as [->|Hk0].
      * destruct (String.eqb_spec Entries.proto k) as [E|]; [|reflexivity].
        symmetry in E. contradiction.
      * rewrite get_define. destruct (String.eqb k0 k); reflexivity.
Qed.

Lemma get_to_object k (l : list (string * V)) :
  Entries.get k (Entries.to_object l) =
  if String.eqb k Entries.proto then None else Entries.last_value k l.
Proof.
  unfold Entries.to_object. rewrite get_fold. cbn [Entries.get].
  destruct (String.eqb k Entries.proto); [reflexivity|].
  destruct (Entries.last_value k l); reflexivity.
Qed.

Lemma define_NoDup k (v : V) acc :
  List.NoDup (map fst acc) -> List.NoDup (map fst (Entries.define k v acc)).
Proof.
  intros H. destruct (in_dec string_dec k (map fst acc)) as [Hin|Hin].
  - rewrite define_keys_In by exact Hin. exact H.
  - rewrite define_fresh by exact Hin. rewrite map_app. cbn [map fst].
    apply (Permutation_NoDup (Permutation_cons_append _ _)). constructor; assumption.
Qed.

Lemma fold_assign_keys_NoDup (l acc : list (string * V)) :
  List.NoDup (map fst acc) -> List.NoDup (map fst (fold_left assign_entry l acc)).
Proof.
  revert acc. induction l as [|[k v] l IH]; intros acc H; cbn [fold_left fst snd]; [exact H|].
  apply IH. unfold Entries.assign. destruct (String.eqb k Entries.proto); [exact H|].
  apply define_NoDup. exact H.
Qed.

(** The keys of an object are distinct. *)
Lemma to_object_keys_NoDup (l : list (string * V)) :
  List.NoDup (map fst (Entries.to_object l)).
Proof. apply fold_assign_keys_NoDup. constructor. Qed.

Lemma define_In k (v : V) acc x :
  In x (Entries.define k v acc) -> x = (k, v) \/ In x acc.
Proof.
  induction acc as [|[k' v'] acc IH]; cbn [Entries.define In].
  - intros [<-|[]]. left. reflexivity.
  - destruct (String.eqb_spec k' k) as [->|_]; cbn [In].
    + intros [<-|H]; auto.
    + intros [<-|H]; auto. destruct (IH H); auto.
Qed.

Lemma fold_assign_In (l acc : list (string * V)) x :
  In x (fold_left assign_entry l acc) ->
  In x acc \/ (In x l /\ fst x <> Entries.proto).
Proof.
  revert acc. induction l as [|[k v] l IH]; intros acc; cbn [fold_left fst snd In]; [auto|].
  intros H. destruct (IH _ H) as [H'|[H' Hp]]; [|auto].
  unfold Entries.assign in H'. destruct (String.eqb_spec k Entries.proto) as [->|Hk]; [auto|].
  destruct (define_In _ _ _ _ H') as [->|]; auto.
Qed.

Lemma to_object_In (l : list (string * V)) x :
  In x (Entries.to_object l) -> In x l /\ fst x <> Entries.proto.
Proof. intros H. destruct (fold_assign_In l [] x H) as [[]|]; assumption. Qed.

Lemma fold_assign_NoDup (l acc : list (string * V)) :
  List.NoDup (map fst (acc ++ l)%list) ->
  fold_left assign_entry l acc = (acc ++ List.filter own l)%list.
Proof.
  revert acc. induction l as [|[k v] l IH]; intros acc H;
    cbn [fold_left fst snd List.filter].
  - symmetry. apply app_nil_r.
  - rewrite map_app in H. cbn [map fst] in H. unfold Entries.assign.
    destruct (String.eqb k Entries.proto); cbn [negb].
    + apply IH. rewrite map_app. eapply NoDup_remove_1. exact H.
    + rewrite define_fresh.
      * rewrite IH; rewrite <- app_assoc; [reflexivity|].
        rewrite map_app. exact H.
      * apply NoDup_remove_2 in H. intros Hin. apply H. apply in_or_app. left. exact Hin.
Qed.

(** Distinct keys: the object has the entries in the order they were
    assigned, the setter key left out. *)
Lemma to_object_NoDup (l : list (string * V)) :
  List.NoDup (map fst l) -> Entries.to_object l = List.filter own l.
Proof. intros H. apply (fold_assign_NoDup l []). exact H. Qed.

Lemma fold_assign_sorted (rank : string -> Z) (l acc : list (string * V)) :
  StronglySorted (fun a b => rank a <= rank b) (map fst (acc ++ l)%list) ->
  StronglySorted (fun a b => rank a <= rank b) (map fst (fold_left assign_entry l acc)).
Proof.
  revert acc. induction l as [|[k v] l IH]; intros acc H; cbn [fold_left fst snd].
  - rewrite app_nil_r in H. exact H.
  - apply IH. rewrite map_app in *. cbn [map fst] in H. unfold Entries.assign.
    destruct (String.eqb k Entries.proto).
    + eapply StronglySorted_remove_middle. exact H.
    + destruct (in_dec string_dec k (map fst acc)) as [Hin|Hin].
      * rewrite define_keys_In by exact Hin.
        eapply StronglySorted_remove_middle. exact H.
      * rewrite define_fresh by exact Hin. rewrite map_app, <- app_assoc. exact H.
Qed.

Lemma StronglySorted_keys (rank : string -> Z) (l : list (string * V)) :
  StronglySorted (fun a b => rank a <= rank b) (map fst l) <->
  StronglySorted (fun a b => rank (fst a) <= rank (fst b)) l.
Proof.
  induction l as [|x l IH]; cbn [map]; split; intros H; try constructor;
    inversion H as [|? ? Hs Hf]; subst.
  - apply IH. exact Hs.
  - rewrite List.Forall_forall in *. intros y Hy. apply Hf. apply in_map. exact Hy.
  - apply IH. exact Hs.
  - rewrite List.Forall_forall in *. intros k Hk.
    apply in_map_iff in Hk as (y & <- & Hy). apply Hf. exact Hy.
Qed.

Lemma to_object_sorted (rank : string -> Z) (l : list (string * V)) :
  StronglySorted (fun a b => rank (fst a) <= rank (fst b)) l ->
  StronglySorted (fun a b => rank (fst a) <= rank (fst b)) (Entries.to_object l).
Proof.
  intros H. apply StronglySorted_keys. apply fold_assign_sorted.
  apply StronglySorted_keys. exact H.
Qed.

Lemma last_value_filter (f : string * V -> bool) k l :
  (forall e, fst e = k -> f e = true) ->
  Entries.last_value k (List.filter f l) = Entries.last_value k l.
Proof.
  intros Hf. induction l as [|[k0 v0] l IH]; [reflexivity|]. cbn [List.filter].
  destruct (f (k0, v0)) eqn:E; cbn [Entries.last_value]; rewrite IH; [reflexivity|].
  destruct (Entries.last_value k l); [reflexivity|].
  destruct (String.eqb_spec k0 k) as [->|]; [|reflexivity].
  rewrite (Hf (k, v0) eq_refl) in E. discriminate.
Qed.

(** A stable sort by a rank of the key keeps the last entry of each key. *)
Lemma last_value_sort_by (rank : string -> Z) k (l : list (string * V)) :
  Entries.last_value k
    (Entries.sort_by (fun a b => rank (fst a) - rank (fst b)) l) =
  Entries.last_value k l.
Proof.
  rewrite <- (last_value_filter (fun e => rank (fst e) =? rank k) k
                (Entries.sort_by _ l)).
  - rewrite (sort_by_filter (fun e => rank (fst e)) (rank k) l).
    apply last_value_filter. intros e <-. apply Z.eqb_refl.
  - intros e <-. apply Z.eqb_refl.
Qed.

Lemma get_In (l : list (string * V)) k v :
  List.NoDup (map fst l) -> (In (k, v) l <-> Entries.get k l = Some v).
Proof.
  induction l as [|[k0 v0] l IH]; cbn [map fst In Entries.get]; intros H.
  - split; [intros [] | discriminate].
  - inversion H as [|? ? Hnin Hnd]; subst. specialize (IH Hnd).
    destruct (String.eqb_spec k0 k) as [->|Hne].
    + split.
      * intros [E|Hin]; [congruence|]. exfalso. apply Hnin.
        apply (in_map fst _ _ Hin).
      * intros [= ->]. left. reflexivity.
    + rewrite <- IH. split; [|auto]. intros [E|Hin]; [congruence | exact Hin].
Qed.

End ToObject.

(** ** Keys *)

Lemma digits_no_prefix k :
  Keys.test_digits k = true -> Keys.strip Keys.disk_prefix k = None.
Proof.
  destruct k as [|c k]; [discriminate|]. cbn [Keys.test_digits Keys.all_digits].
  intros H. apply andb_true_iff in H as [Hc _].
  unfold Keys.disk_prefix. cbn [Keys.strip].
  destruct (Ascii.eqb_spec "d"%char c) as [<-|]; [discriminate Hc | reflexivity].
Qed.

Lemma denormalizeKey_normalizeKey k :
  Keys.denormalizeKey (Keys.normalizeKey k) = Keys.denormalizeKey k.
Proof.
  unfold Keys.normalizeKey. destruct (Keys.test_digits k) eqn:E; [|reflexivity].
  unfold Keys.denormalizeKey at 2. rewrite (digits_no_prefix k E). reflexivity.
Qed.

Lemma normalizeKey_not_digits k : Keys.test_digits (Keys.normalizeKey k) = false.
Proof.
  unfold Keys.normalizeKey. destruct (Keys.test_digits k) eqn:E; [reflexivity | exact E].
Qed.

Lemma normalizeKey_proto k :
  k <> Entries.proto -> String.eqb (Keys.normalizeKey k) Entries.proto = false.
Proof.
  intros H. unfold Keys.normalizeKey. destruct (Keys.test_digits k); [reflexivity|].
  apply String.eqb_neq. exact H.
Qed.

Lemma pos_normalizeKey k : Keys.pos (Keys.normalizeKey k) = Keys.pos k.
Proof. unfold Keys.pos. rewrite denormalizeKey_normalizeKey. reflexivity. Qed.

Lemma indexOf_In l x :
  In x l ->
  0 <= Keys.indexOf l x < Z.of_nat (length l) /\
  nth_error l (Z.to_nat (Keys.indexOf l x)) = Some x.
Proof.
  induction l as [|y l IH]; [intros []|]. intros H. cbn [Keys.indexOf length].
  destruct (String.eqb_spec y x) as [->|Hne].
  - split; [lia | reflexivity].
  - destruct H as [H|H]; [contradiction|]. destruct (IH H) as [Hr Hn].
    destruct (Z.eqb_spec (Keys.indexOf l x) (-1)); [lia|].
    split; [lia|].
    replace (Z.to_nat (Keys.indexOf l x + 1)) with (S (Z.to_nat (Keys.indexOf l x))) by lia.
    exact Hn.
Qed.

Lemma indexOf_not_In l x : ~ In x l -> Keys.indexOf l x = -1.
Proof.
  induction l as [|y l IH]; [reflexivity|]. intros H. cbn [Keys.indexOf].
  destruct (String.eqb_spec y x) as [->|Hne]; [exfalso; apply H; left; reflexivity|].
  rewrite IH; [reflexivity|]. intros Hin. apply H. right. exact Hin.
Qed.

(** ** The published category map *)

Lemma sortedMerged_unfold merged :
  sortedMerged merged =
  Entries.to_object
    (Entries.sort_by (fun a b => Keys.pos (fst a) - Keys.pos (fst b)) (map normalised merged)).
Proof. reflexivity. Qed.

Lemma sortedMerged_sorted merged : StronglySorted pos_le (sortedMerged merged).
Proof.
  rewrite sortedMerged_unfold. unfold pos_le.
  generalize (sort_by_sorted (fun e => Keys.pos (fst e)) (map normalised merged)).
  generalize (Entries.sort_by (fun a b => Keys.pos (fst a) - Keys.pos (fst b))
                (map normalised merged)).
  intros l. cbv beta. apply (to_object_sorted Keys.pos).
Qed.

Lemma sortedMerged_get k merged :
  Entries.get k (sortedMerged merged) =
  if String.eqb k Entries.proto then None
  else Entries.last_value k (map normalised merged).
Proof.
  rewrite sortedMerged_unfold, get_to_object.
  destruct (String.eqb k Entries.proto); [reflexivity|].
  apply (last_value_sort_by Keys.pos).
Qed.

Lemma sortedMerged_In k v merged :
  In (k, v) (sortedMerged merged) ->
  k <> Entries.proto /\ exists k0, In (k0, v) merged /\ k = Keys.normalizeKey k0.
Proof.
  rewrite sortedMerged_unfold. intros Hin. apply to_object_In in Hin as [Hin Hp].
  split; [exact Hp|].
  apply (Permutation_in _ (sort_by_Permutation _ _)) in Hin.
  apply in_map_iff in Hin as ([k0 v0] & E & Hin). injection E as <- <-.
  exists k0. split; [exact Hin | reflexivity].
Qed.

Lemma sortedMerged_NoDup merged :
  List.NoDup (map (fun e => Keys.normalizeKey (fst e)) merged) ->
  sortedMerged merged =
  stored (Entries.sort_by (fun a b => Keys.pos (fst a) - Keys.pos (fst b))
            (map normalised merged)).
Proof.
  intros H. rewrite sortedMerged_unfold. apply to_object_NoDup.
  eapply Permutation_NoDup; [|exact H].
  rewrite <- (map_map normalised fst). apply Permutation_map. symmetry.
  apply sort_by_Permutation.
Qed.

Lemma sortedMerged_Permutation merged :
  List.NoDup (map (fun e => Keys.normalizeKey (fst e)) merged) ->
  Permutation (sortedMerged merged) (stored (map normalised merged)).
Proof.
  intros H. rewrite (sortedMerged_NoDup merged H). unfold stored.
  apply Permutation_filter, sort_by_Permutation.
Qed.

Lemma sortedMerged_at_pos r merged :
  List.NoDup (map (fun e => Keys.normalizeKey (fst e)) merged) ->
  at_pos r (sortedMerged merged) = at_pos r (stored (map normalised merged)).
Proof.
  intros H. rewrite (sortedMerged_NoDup merged H). unfold at_pos, stored.
  rewrite filter_comm.
  rewrite (sort_by_filter (fun e => Keys.pos (fst e)) r (map normalised merged)).
  apply filter_comm.
Qed.

(** Two examples of keys outside the list that are placed as a listed
    name because they begin with "disk_": such a key overtakes another
    key outside the list, and it comes before a listed key of a later
    position. *)
Lemma prefixed_key_overtakes :
  Keys.indexOf Keys.diskSortOrder "foo" = -1 /\
  Keys.indexOf Keys.diskSortOrder "disk_aliyun" = -1 /\
  sortedMerged [("foo", ["a"]); ("disk_aliyun", ["b"])]
    = [("disk_aliyun", ["b"]); ("foo", ["a"])] /\
  Keys.indexOf Keys.diskSortOrder "baidu" = 1 /\
  sortedMerged [("baidu", ["a"]); ("disk_aliyun", ["b"])]
    = [("disk_aliyun", ["b"]); ("baidu", ["a"])].
Proof. repeat split; vm_compute; reflexivity. Qed.

(** C6.  The published entries are in the order of their positions: of
    two published entries, the one of the smaller position comes first.
    The position of a key is the rank of its name without a leading
    "disk_", whether that prefix was added to an integer key or was part
    of the key already; the rank of a name is its index in
    [diskSortOrder], below 13, or 999 for a name that is not in it.  When
    the keys stay distinct once integers are prefixed, the published
    entries are the prefixed entries that the object stores (all but the
    key "__proto__"), entries of one position keep their order, and with
    keys "aliyun" and "101" in the response "aliyun" comes before
    "disk_101". *)
Theorem category_order (merged : MergedResults) :
  let out := sortedMerged merged in
  StronglySorted pos_le out /\
  (forall a b, In a out -> In b out -> Keys.pos (fst a) < Keys.pos (fst b) ->
     exists l1 l2 l3, out = (l1 ++ a :: l2 ++ b :: l3)%list) /\
  (forall k, Keys.pos k = listed_rank (Keys.denormalizeKey k) /\
             Keys.pos (Keys.normalizeKey k) = Keys.pos k) /\
  (forall name, In name Keys.diskSortOrder ->
     0 <= listed_rank name < 13 /\
     nth_error Keys.diskSortOrder (Z.to_nat (listed_rank name)) = Some name) /\
  (forall name, ~ In name Keys.diskSortOrder -> listed_rank name = 999) /\
  (List.NoDup (map (fun e => Keys.normalizeKey (fst e)) merged) ->
     Permutation out (stored (map normalised merged)) /\
     (forall r, at_pos r out = at_pos r (stored (map normalised merged))) /\
     (forall va vd, In ("aliyun", va) merged -> In ("101", vd) merged ->
        exists l1 l2 l3,
          out = (l1 ++ ("aliyun", va) :: l2 ++ ("disk_101", vd) :: l3)%list)).
Proof.
  intros out.
  pose proof (sortedMerged_sorted merged) as Hsorted. fold out in Hsorted.
  assert (Hbefore : forall a b, In a out -> In b out ->
            Keys.pos (fst a) < Keys.pos (fst b) ->
            exists l1 l2 l3, out = (l1 ++ a :: l2 ++ b :: l3)%list).
  { intros a b. apply (sorted_before (fun e => Keys.pos (fst e)) out a b Hsorted). }
  split; [exact Hsorted|]. split; [exact Hbefore|].
  split; [intros k; split; [reflexivity | apply pos_normalizeKey]|].
  split; [|split].
  - intros name Hin. unfold listed_rank.
    destruct (indexOf_In Keys.diskSortOrder name Hin) as [Hr Hn].
    change (Z.of_nat (length Keys.diskSortOrder)) with 13 in Hr.
    destruct (Z.eqb_spec (Keys.indexOf Keys.diskSortOrder name) (-1)); [lia|].
    split; [lia | exact Hn].
  - intros name Hin. unfold listed_rank. rewrite (indexOf_not_In _ _ Hin). reflexivity.
  - intros Hnd.
    pose proof (sortedMerged_Permutation merged Hnd) as Hperm. fold out in Hperm.
    split; [exact Hperm|]. split; [intros r; apply sortedMerged_at_pos; exact Hnd|].
    intros va vd Ha Hd. apply Hbefore.
    + apply (Permutation_in _ (Permutation_sym Hperm)). unfold stored.
      apply filter_In. split; [|reflexivity]. apply (in_map normalised _ _ Ha).
    + apply (Permutation_in _ (Permutation_sym Hperm)). unfold stored.
      apply filter_In. split; [|reflexivity]. apply (in_map normalised _ _ Hd).
    + reflexivity.
Qed.

Lemma category_order_witness :
  List.NoDup (map (fun e => Keys.normalizeKey (fst e)) Ex.categories) /\
  StronglySorted pos_le (sortedMerged Ex.categories) /\
  exists l1 l2 l3,
    sortedMerged Ex.categories = (l1 ++ ("aliyun", ["z"]) :: l2 ++ ("disk_101", ["x"]) :: l3)%list.
Proof.
  assert (H : List.NoDup (map (fun e => Keys.normalizeKey (fst e)) Ex.categories)).
  { repeat constructor; cbn; intuition discriminate. }
  split; [exact H|].
  destruct (category_order Ex.categories) as (Hs & _ & _ & _ & _ & Hd).
  split; [exact Hs|]. destruct (Hd H) as (_ & _ & Hb). apply Hb; cbn; auto.
Defined.

(** Two examples of entries that are not published: an integer key next
    to the key it is renamed to (one entry is published, and the items of
    "101" are not in it), and the key "__proto__" (no entry is published
    for it). *)
Lemma colliding_keys_lose_items :
  sortedMerged [("101", ["a"]); ("disk_101", ["b"])] = [("disk_101", ["b"])] /\
  sortedMerged [("__proto__", ["x"]); ("aliyun", ["z"])] = [("aliyun", ["z"])].
Proof. split; vm_compute; reflexivity. Qed.

(** C9.  The published keys are distinct, none of them is made of digits
    only, none is "__proto__", and every published entry is an entry of
    the response under its key, prefixed with "disk_" when the key is
    made of digits only.  What is published under a key is the item list
    of the last entry of the response that the prefixing gives this key,
    and nothing under "__proto__": two entries that get the same key are
    published as one, with the items of the later one.  When the keys stay
    distinct once integers are prefixed, every entry of the response but
    that of "__proto__" is published with its items, an integer key
    prefixed and any other key as it is. *)
Theorem published_keys (merged : MergedResults) :
  let out := sortedMerged merged in
  List.NoDup (map fst out) /\
  (forall k v, In (k, v) out <-> Entries.get k out = Some v) /\
  (forall k, Entries.get k out =
     if String.eqb k Entries.proto then None
     else Entries.last_value k (map normalised merged)) /\
  (forall k v, In (k, v) out ->
     Keys.test_digits k = false /\
     k <> Entries.proto /\
     exists k0, In (k0, v) merged /\
       k = if Keys.test_digits k0 then String.append "disk_" k0 else k0) /\
  (List.NoDup (map (fun e => Keys.normalizeKey (fst e)) merged) ->
     Permutation out (stored (map normalised merged)) /\
     forall k v, In (k, v) merged -> k <> Entries.proto ->
       In ((if Keys.test_digits k then String.append "disk_" k else k), v) out).
Proof.
  intros out.
  assert (Hnd : List.NoDup (map fst out)) by apply to_object_keys_NoDup.
  split; [exact Hnd|]. split; [intros k v; apply get_In; exact Hnd|].
  split; [intros k; apply sortedMerged_get|]. split.
  - intros k v Hin. apply sortedMerged_In in Hin as (Hp & k0 & Hin & ->).
    split; [apply normalizeKey_not_digits|]. split; [exact Hp|].
    exists k0. split; [exact Hin | reflexivity].
  - intros Hd. pose proof (sortedMerged_Permutation merged Hd) as Hperm. fold out in Hperm.
    split; [exact Hperm|]. intros k v Hin Hk.
    apply (Permutation_in _ (Permutation_sym Hperm)). unfold stored.
    apply filter_In. split; [apply (in_map normalised _ _ Hin)|].
    change (negb (String.eqb (Keys.normalizeKey k) Entries.proto) = true).
    rewrite (normalizeKey_proto k Hk). reflexivity.
Qed.

Lemma published_keys_witness :
  List.NoDup (map (fun e => Keys.normalizeKey (fst e)) Ex.categories) /\
  In ("disk_101", ["x"]) (sortedMerged Ex.categories).
Proof.
  assert (H : List.NoDup (map (fun e => Keys.normalizeKey (fst e)) Ex.categories)).
  { repeat constructor; cbn; intuition discriminate. }
  split; [exact H|].
  destruct (published_keys Ex.categories) as (_ & _ & _ & _ & Hd).
  apply (proj2 (Hd H) "101" ["x"]); [cbn; auto | discriminate].
Defined.

(** ** Worlds reached from the initial one *)

Lemma run_snoc w es e :
  run w (es ++ [e])%list =
  match run w es with
  | Some w1 => step w1 e
  | None => None
  end.
Proof.
  revert w. induction es as [|e0 es IH]; intros w; cbn [run app].
  - destruct (step w e); reflexivity.
  - destruct (step w e0); [apply IH | reflexivity].
Qed.

Lemma reachable_step w e w' : reachable w -> step w e = Some w' -> reachable w'.
Proof.
  intros [es H] Hs. exists (es ++ [e])%list. rewrite run_snoc, H. exact Hs.
Qed.

Lemma reachable_invariant (P : World -> Prop) :
  P initial_world ->
  (forall w e w', reachable w -> P w -> step w e = Some w' -> P w') ->
  forall w, reachable w -> P w.
Proof.
  intros H0 Hstep w [es Hrun].
  assert (G : forall es w0 w, reachable w0 -> P w0 -> run w0 es = Some w -> P w).
  { clear w es Hrun. induction es as [|e es IH]; intros w0 w Hr Hp; cbn [run].
    - intros [= <-]. exact Hp.
    - destruct (step w0 e) as [w1|] eqn:E; [|discriminate].
      apply IH; [eapply reachable_step; eassumption | eapply Hstep; eassumption]. }
  apply (G es initial_world w); [exists []; reflexivity | exact H0 | exact Hrun].
Qed.

(** ** Refs that a handler leaves alone *)

Lemma updateSearchResults_frame r s :
  updateTimer (updateSearchResults r s) = updateTimer s /\
  secondSearchTimeout (updateSearchResults r s) = secondSearchTimeout s /\
  thirdSearchTimeout (updateSearchResults r s) = thirdSearchTimeout s /\
  lastSearchParams (updateSearchResults r s) = lastSearchParams s /\
  keyword (updateSearchResults r s) = keyword s /\
  hasSearched (updateSearchResults r s) = hasSearched s /\
  updateCount (updateSearchResults r s) = updateCount s /\
  isUpdating (updateSearchResults r s) = isUpdating s /\
  isActivelySearching (updateSearchResults r s) = isActivelySearching s /\
  searchTime (updateSearchResults r s) = searchTime s.
Proof. destruct r as [[t [m|]]|]; repeat split. Qed.

Ltac frame_tac :=
  unfold update_if_more, startSecondAllSearch, startThirdAllSearch;
  repeat first
    [ rewrite stopUpdate_store
    | rewrite stopUpdate_now
    | match goal with
      | |- context [match lastSearchParams ?s with _ => _ end] =>
          destruct (lastSearchParams s) eqn:?
      | |- context [if ?b then _ else _] => destruct b eqn:?
      end ];
  cbn;
  repeat match goal with
  | |- context [updateSearchResults ?r ?s] =>
      let H := fresh in
      pose proof (updateSearchResults_frame r s) as H;
      destruct H as (? & ? & ? & ? & ? & ? & ? & ? & ? & ?);
      generalize dependent (updateSearchResults r s); intros
  end;
  repeat split; intros; congruence.

Lemma resume_frame k o w :
  (updateTimer (store w) = None -> updateTimer (store (resume k o w)) = None) /\
  lastSearchParams (store (resume k o w)) = lastSearchParams (store w) /\
  keyword (store (resume k o w)) = keyword (store w) /\
  hasSearched (store (resume k o w)) = hasSearched (store w) /\
  now (resume k o w) = now w.
Proof. destruct k, o as [|r]; cbn [resume]; frame_tac. Qed.

Lemma call_frame cb w :
  (updateTimer (store w) = None -> updateTimer (store (call cb w)) = None) /\
  lastSearchParams (store (call cb w)) = lastSearchParams (store w) /\
  keyword (store (call cb w)) = keyword (store w) /\
  hasSearched (store (call cb w)) = hasSearched (store w) /\
  updateCount (store (call cb w)) = updateCount (store w) /\
  now (call cb w) = now w.
Proof. destruct cb; cbn [call]; frame_tac. Qed.

Lemma handleSearch_refs p w :
  updateTimer (store (handleSearch p w)) = None /\
  secondSearchTimeout (store (handleSearch p w)) = None /\
  thirdSearchTimeout (store (handleSearch p w)) = None /\
  isUpdating (store (handleSearch p w)) = false /\
  isActivelySearching (store (handleSearch p w)) = true /\
  hasSearched (store (handleSearch p w)) = true /\
  searchTime (store (handleSearch p w)) = None /\
  updateCount (store (handleSearch p w)) = updateCount (store w).
Proof.
  destruct w as [s n tm nt rq nr];
    destruct s as [? ? ? ? ? ? [a|] [b|] [c|] ? ? ? ?]; repeat split; reflexivity.
Qed.

Lemma resetToInitial_store w :
  store (resetToInitial w) =
  {| loading := false;
     searchResults_total := 0;
     searchResults_mergedResults := [];
     searchTime := None;
     isUpdating := false;
     updateCount := 0;
     updateTimer := None;
     secondSearchTimeout := None;
     thirdSearchTimeout := None;
     lastSearchParams := lastSearchParams (store w);
     hasSearched := false;
     isActivelySearching := false;
     keyword := keyword (store w) |}.
Proof.
  destruct w as [s n tm nt rq nr];
    destruct s as [? ? ? ? ? ? [a|] [b|] [c|] ? ? ? ?]; reflexivity.
Qed.

Lemma resetToInitial_world w :
  now (resetToInitial w) = now (stopUpdate w) /\
  timers (resetToInitial w) = timers (stopUpdate w) /\
  next_timer (resetToInitial w) = next_timer (stopUpdate w) /\
  requests (resetToInitial w) = requests (stopUpdate w) /\
  next_request (resetToInitial w) = next_request (stopUpdate w).
Proof. repeat split. Qed.

Lemma reachable_after es w : run initial_world es = Some w -> reachable w.
Proof. intros H. exists es. exact H. Qed.

(** ** updateTimer *)

(** X1.  Nothing assigns a handle to [updateTimer]: in every world the
    component can be in it is [null], so the [clearInterval] branch of
    [stopUpdate] never runs and the handles held in refs are those of
    [secondSearchTimeout] and [thirdSearchTimeout]. *)
Theorem updateTimer_never_set (w : World) :
  reachable w ->
  updateTimer (store w) = None /\
  (forall h, stored_handle w h <->
     secondSearchTimeout (store w) = Some h \/ thirdSearchTimeout (store w) = Some h).
Proof.
  intros Hr.
  assert (H : updateTimer (store w) = None).
  { revert w Hr. apply reachable_invariant; [reflexivity|].
    intros w e w' _ H. destruct e as [p|id o|h|ms| |]; cbn [step].
    - intros [= <-]. exact (proj1 (handleSearch_refs p w)).
    - destruct (requests w !! id) as [[q k]|]; [|discriminate]. intros [= <-].
      exact (proj1 (resume_frame k o (take_request id w)) H).
    - destruct (timers w !! h) as [[due cb]|]; [|discriminate].
      destruct (due <=? now w); [|discriminate]. intros [= <-].
      exact (proj1 (call_frame cb (clearTimeout h w)) H).
    - destruct (0 <=? ms); [|discriminate]. intros [= <-]. exact H.
    - intros [= <-]. rewrite resetToInitial_store. reflexivity.
    - intros [= <-]. rewrite stopUpdate_store. reflexivity. }
  split; [exact H|]. intros h. unfold stored_handle. rewrite H.
  split; [intros [E|E]; [discriminate | exact E] | intros E; right; exact E].
Qed.

Lemma updateTimer_never_set_witness :
  reachable (Ex.after Ex.third_pending) /\
  updateTimer (store (Ex.after Ex.third_pending)) = None.
Proof.
  assert (H : reachable (Ex.after Ex.third_pending)).
  { apply (reachable_after Ex.third_pending). vm_compute; reflexivity. }
  split; [exact H|]. apply (updateTimer_never_set _ H).
Defined.

(** ** The guards on lastSearchParams *)

Lemma stopUpdate_empty w : timers w = ∅ -> timers (stopUpdate w) = ∅.
Proof.
  intros H. apply map_eq. intros h. rewrite stopUpdate_timers, H.
  case_decide; rewrite lookup_empty; reflexivity.
Qed.

(** Once a timer is pending or a request is in flight, a search is
    recorded in [lastSearchParams]. *)
Lemma lastSearchParams_recorded w :
  reachable w ->
  lastSearchParams (store w) = None -> timers w = ∅ /\ requests w = ∅.
Proof.
  revert w.
  apply (reachable_invariant
           (fun w => lastSearchParams (store w) = None -> timers w = ∅ /\ requests w = ∅));
    [intros _; split; reflexivity|].
  intros w e w' _ IH. destruct e as [p|id o|h|ms| |]; cbn [step].
  - intros [= <-] H. destruct (handleSearch_store p w) as (_ & _ & Hp & _). congruence.
  - destruct (requests w !! id) as [[q k]|] eqn:E; [|discriminate]. intros [= <-] H.
    destruct (resume_frame k o (take_request id w)) as (_ & Hl & _). rewrite Hl in H.
    destruct (IH H) as [_ Hr]. rewrite Hr, lookup_empty in E. discriminate.
  - destruct (timers w !! h) as [[due cb]|] eqn:E; [|discriminate].
    destruct (due <=? now w); [|discriminate]. intros [= <-] H.
    destruct (call_frame cb (clearTimeout h w)) as (_ & Hl & _). rewrite Hl in H.
    destruct (IH H) as [Ht _]. rewrite Ht, lookup_empty in E. discriminate.
  - destruct (0 <=? ms); [|discriminate]. intros [= <-] H. exact (IH H).
  - intros [= <-] H. rewrite resetToInitial_store in H.
    destruct (IH H) as [Ht Hq].
    destruct (resetToInitial_world w) as (_ & -> & _ & -> & _). split.
    + apply stopUpdate_empty. exact Ht.
    + rewrite stopUpdate_requests. exact Hq.
  - intros [= <-] H. rewrite stopUpdate_store in H. destruct (IH H) as [Ht Hq]. split.
    + apply stopUpdate_empty. exact Ht.
    + rewrite stopUpdate_requests. exact Hq.
Qed.

Lemma pending_has_params w :
  reachable w ->
  (exists h x, timers w !! h = Some x) \/ (exists i x, requests w !! i = Some x) ->
  exists p, lastSearchParams (store w) = Some p.
Proof.
  intros Hr H. destruct (lastSearchParams (store w)) as [p|] eqn:E; [eauto|].
  destruct (lastSearchParams_recorded w Hr E) as [Ht Hq].
  destruct H as [(h & x & H)|(i & x & H)];
    [rewrite Ht in H | rewrite Hq in H]; rewrite lookup_empty in H; discriminate.
Qed.



(** ** updateCount *)

Lemma startSecondAllSearch_flags t w p :
  lastSearchParams (store w) = Some p ->
  updateCount (store (startSecondAllSearch t w)) = 1 /\
  isUpdating (store (startSecondAllSearch t w)) = true /\
  isActivelySearching (store (startSecondAllSearch t w)) = true.
Proof. intros H. unfold startSecondAllSearch. rewrite H. repeat split. Qed.

Lemma startThirdAllSearch_updateCount t w p :
  lastSearchParams (store w) = Some p ->
  updateCount (store (startThirdAllSearch t w)) = 2.
Proof. intros H. unfold startThirdAllSearch. rewrite H. reflexivity. Qed.

Lemma update_if_more_updateCount r w :
  updateCount (store (update_if_more r w)) = updateCount (store w).
Proof.
  unfold update_if_more. destruct (at_least_current r (store w)); [|reflexivity].
  apply updateSearchResults_frame.
Qed.

Lemma resume_updateCount k o w p :
  lastSearchParams (store w) = Some p ->
  updateCount (store (resume k o w)) =
  match k with
  | AfterFirstAll => 1
  | AfterFirstAllFallback => if no_total o then updateCount (store w) else 1
  | AfterSecondAll =>
      match o with
      | Resolved _ => 2
      | Rejected => updateCount (store w)
      end
  | AfterTg _ _ | AfterThirdAll => updateCount (store w)
  end.
Proof.
  intros Hp. destruct k, o as [|r]; cbn [resume no_total].
  - reflexivity.
  - destruct (has_total r); cbn; [|reflexivity]. apply updateSearchResults_frame.
  - eapply startSecondAllSearch_flags. exact Hp.
  - eapply startSecondAllSearch_flags. rewrite update_if_more_lastSearchParams. exact Hp.
  - reflexivity.
  - destruct (has_total r); cbn [negb]; [|reflexivity].
    eapply startSecondAllSearch_flags. cbn [store on_store].
    rewrite updateSearchResults_lastSearchParams. exact Hp.
  - rewrite stopUpdate_store. reflexivity.
  - eapply startThirdAllSearch_updateCount. rewrite update_if_more_lastSearchParams. exact Hp.
  - rewrite stopUpdate_store. reflexivity.
  - rewrite stopUpdate_store. cbn. apply update_if_more_updateCount.
Qed.

(** X3.  [updateCount] after one turn of the event loop, in a world the
    component can be in: it becomes 1 when the first ALL search settles
    (when that search was issued after a TG failure: only if it brings a
    total), 2 when the second ALL search is fulfilled, 0 on a reset, and
    is left as it is by every other event; a new search does not set it
    back. *)
Theorem updateCount_after_step (w w' : World) (e : Event) :
  reachable w ->
  step w e = Some w' ->
  updateCount (store w') =
  match e with
  | Settle id o =>
      match requests w !! id with
      | Some (_, AfterFirstAll) => 1
      | Some (_, AfterFirstAllFallback) =>
          if no_total o then updateCount (store w) else 1
      | Some (_, AfterSecondAll) =>
          match o with
          | Resolved _ => 2
          | Rejected => updateCount (store w)
          end
      | _ => updateCount (store w)
      end
  | ResetToInitial => 0
  | Search _ | Fire _ | Tick _ | Unmounted => updateCount (store w)
  end.
Proof.
  intros Hr. destruct e as [p|id o|h|ms| |]; cbn [step].
  - intros [= <-]. apply handleSearch_refs.
  - destruct (requests w !! id) as [[q k]|] eqn:E; [|discriminate]. intros [= <-].
    destruct (pending_has_params w Hr) as [p Hp]; [right; eauto|].
    rewrite (resume_updateCount k o (take_request id w) p Hp). destruct k; reflexivity.
  - destruct (timers w !! h) as [[due cb]|]; [|discriminate].
    destruct (due <=? now w); [|discriminate]. intros [= <-].
    destruct (call_frame cb (clearTimeout h w)) as (_ & _ & _ & _ & Hc & _). exact Hc.
  - destruct (0 <=? ms); [|discriminate]. intros [= <-]. reflexivity.
  - intros [= <-]. rewrite resetToInitial_store. reflexivity.
  - intros [= <-]. rewrite stopUpdate_store. reflexivity.
Qed.

Lemma updateCount_after_step_witness :
  reachable (Ex.after Ex.third_pending) /\
  updateCount (store (Ex.after Ex.third_pending)) = 2 /\
  updateCount (store (handleSearch Ex.bar (Ex.after Ex.third_pending))) = 2.
Proof.
  assert (H : reachable (Ex.after Ex.third_pending)).
  { apply (reachable_after Ex.third_pending). vm_compute; reflexivity. }
  split; [exact H|]. split; [vm_compute; reflexivity|].
  apply (updateCount_after_step (Ex.after Ex.third_pending) _ (Search Ex.bar) H).
  reflexivity.
Defined.

(** ** searchTime *)






(** ** Timers held in no ref *)

Lemma untouched_refl h w : untouched h w w.
Proof. intros H. split; [exact H | reflexivity]. Qed.

Lemma untouched_trans h w1 w2 w3 :
  untouched h w1 w2 -> untouched h w2 w3 -> untouched h w1 w3.
Proof.
  intros H12 H23 H1. destruct (H12 H1) as [H2 E12]. destruct (H23 H2) as [H3 E23].
  split; [exact H3|]. rewrite E23. exact E12.
Qed.

Lemma untouched_same h w w' :
  timers w' = timers w -> next_timer w' = next_timer w ->
  updateTimer (store w') = updateTimer (store w) ->
  secondSearchTimeout (store w') = secondSearchTimeout (store w) ->
  thirdSearchTimeout (store w') = thirdSearchTimeout (store w) ->
  untouched h w w'.
Proof.
  intros Ht Hn H1 H2 H3 H. unfold stored_handle in *.
  rewrite Ht, Hn, H1, H2, H3. split; [exact H | reflexivity].
Qed.

Lemma untouched_search h p k w : untouched h w (search p k w).
Proof. apply untouched_same; reflexivity. Qed.

Lemma untouched_stopUpdate h w : untouched h w (stopUpdate w).
Proof.
  intros [Hlt Hns]. rewrite stopUpdate_next_timer, stopUpdate_timers.
  unfold stored_handle at 1. rewrite stopUpdate_store. cbn.
  split; [split; [exact Hlt | intros [E|[E|E]]; discriminate]|].
  case_decide; [contradiction | reflexivity].
Qed.

Lemma untouched_update_if_more h r w : untouched h w (update_if_more r w).
Proof.
  unfold update_if_more. destruct (at_least_current r (store w)); [|apply untouched_refl].
  apply untouched_same; try reflexivity; cbn [store on_store];
    apply updateSearchResults_frame.
Qed.

Lemma untouched_setTimeout h cb d w : untouched h w (snd (setTimeout cb d w)).
Proof.
  intros [Hlt Hns]. cbn. split; [split; [lia | exact Hns]|].
  apply lookup_insert_ne. lia.
Qed.

Lemma untouched_startSecondAllSearch h t w : untouched h w (startSecondAllSearch t w).
Proof.
  unfold startSecondAllSearch. destruct (lastSearchParams (store w)); [|apply untouched_refl].
  intros [Hlt Hns]. unfold stored_handle in *. cbn.
  split; [split; [lia|]|apply lookup_insert_ne; lia].
  intros [E|[E|E]]; [tauto | injection E; lia | tauto].
Qed.

Lemma untouched_startThirdAllSearch h t w : untouched h w (startThirdAllSearch t w).
Proof.
  unfold startThirdAllSearch. destruct (lastSearchParams (store w)); [|apply untouched_refl].
  intros [Hlt Hns]. unfold stored_handle in *. cbn.
  split; [split; [lia|]|apply lookup_insert_ne; lia].
  intros [E|[E|E]]; [tauto | tauto | injection E; lia].
Qed.

Ltac untouched_step_tac :=
  first [ apply untouched_search | apply untouched_stopUpdate
        | apply untouched_update_if_more | apply untouched_startSecondAllSearch
        | apply untouched_startThirdAllSearch
        | apply untouched_setTimeout
        | apply untouched_same; try reflexivity; cbn [store on_store];
          apply updateSearchResults_frame ].

Ltac untouched_tac :=
  cbv zeta;
  repeat first [ apply untouched_refl | untouched_step_tac
               | eapply untouched_trans; [| untouched_step_tac ] ].

Lemma untouched_resume h k o w : untouched h w (resume k o w).
Proof.
  destruct k, o as [|r]; cbn [resume]; try destruct (has_total r); untouched_tac.
Qed.

Lemma untouched_call h cb w : untouched h w (call cb w).
Proof.
  destruct cb; cbn [call];
    try destruct (loading (store w)); try destruct (lastSearchParams (store w));
    untouched_tac.
Qed.

Lemma untouched_on_store h (f : Store -> Store) w :
  updateTimer (f (store w)) = updateTimer (store w) ->
  secondSearchTimeout (f (store w)) = secondSearchTimeout (store w) ->
  thirdSearchTimeout (f (store w)) = thirdSearchTimeout (store w) ->
  untouched h w (on_store f w).
Proof. intros H1 H2 H3. apply untouched_same; try reflexivity; assumption. Qed.

Lemma untouched_handleSearch h p w : untouched h w (handleSearch p w).
Proof.
  unfold handleSearch. cbv zeta.
  eapply untouched_trans; [apply untouched_stopUpdate|].
  generalize (stopUpdate w). intros w1.
  eapply untouched_trans; [|apply untouched_setTimeout].
  eapply untouched_trans; [|apply untouched_search].
  apply untouched_same; reflexivity.
Qed.

Lemma untouched_resetToInitial h w : untouched h w (resetToInitial w).
Proof.
  eapply untouched_trans; [apply untouched_stopUpdate|].
  intros [Hlt Hns]. unfold stored_handle in *.
  destruct (resetToInitial_world w) as (_ & -> & -> & _). rewrite resetToInitial_store. cbn.
  split; [split; [exact Hlt | intros [E|[E|E]]; discriminate] | reflexivity].
Qed.

Lemma untouched_step h w e w' :
  e <> Fire h -> step w e = Some w' -> untouched h w w'.
Proof.
  intros Hne. destruct e as [p|id o|h'|ms| |]; cbn [step].
  - intros [= <-]. apply untouched_handleSearch.
  - destruct (requests w !! id) as [[p k]|]; [|discriminate].
    intros [= <-]. eapply untouched_trans; [|apply untouched_resume].
    apply untouched_same; reflexivity.
  - destruct (timers w !! h') as [[due cb]|]; [|discriminate].
    destruct (due <=? now w); [|discriminate].
    intros [= <-]. eapply untouched_trans; [|apply untouched_call].
    intros H. cbn. split; [exact H|]. apply lookup_delete_ne. congruence.
  - destruct (0 <=? ms); [|discriminate]. intros [= <-]. apply untouched_same; reflexivity.
  - intros [= <-]. apply untouched_resetToInitial.
  - intros [= <-]. apply untouched_stopUpdate.
Qed.

Lemma untouched_run h es : forall w w',
  ~ In (Fire h) es -> run w es = Some w' -> untouched h w w'.
Proof.
  induction es as [|e es IH]; intros w w' Hnin; cbn [run].
  - intros [= <-]. apply untouched_refl.
  - destruct (step w e) as [w1|] eqn:E; [|discriminate]. intros Hrun.
    eapply untouched_trans.
    + eapply untouched_step; [|exact E]. intros ->. apply Hnin. left. reflexivity.
    + apply IH; [|exact Hrun]. intros Hin. apply Hnin. right. exact Hin.
Qed.

(** X5.  The timeout that [handleSearch] starts is due 5000 ms after the
    search and its handle is kept nowhere: whatever happens next (answers,
    other timers, new searches, a reset, the unmounting) it stays pending,
    with the same due time, until it runs; and it can run as soon as it
    is due. *)
Theorem loading_timeout_stays_pending (w : World) (p : SearchParams)
    (es : list Event) (w' : World) :
  run (handleSearch p w) es = Some w' ->
  ~ In (Fire (next_timer w)) es ->
  timers w' !! next_timer w = Some (now w + 5000, loadingTimeout) /\
  (now w + 5000 <= now w' -> is_Some (step w' (Fire (next_timer w)))).
Proof.
  intros Hrun Hnin.
  destruct (handleSearch_timers p w) as [Ht Hn].
  destruct (handleSearch_refs p w) as (H1 & H2 & H3 & _).
  assert (E : timers w' !! next_timer w = Some (now w + 5000, loadingTimeout)).
  { destruct (untouched_run (next_timer w) es (handleSearch p w) w' Hnin Hrun) as [_ E].
    - split; [rewrite Hn; lia|]. unfold stored_handle. rewrite H1, H2, H3.
      intros [E|[E|E]]; discriminate.
    - rewrite E, Ht. apply lookup_insert_eq. }
  split; [exact E|]. intros Hdue. cbn [step]. rewrite E.
  destruct (Z.leb_spec (now w + 5000) (now w')); [eexists; reflexivity | lia].
Qed.

Lemma loading_timeout_stays_pending_witness :
  timers (Ex.after Ex.two_searches) !! 1%positive = Some (0 + 5000, loadingTimeout).
Proof.
  refine (proj1 (loading_timeout_stays_pending initial_world Ex.foo
            [Settle 1 (Ex.ok 5 [("aliyun", ["a"])]); Tick 4000; Search Ex.bar; Tick 1000]
            (Ex.after Ex.two_searches) _ _)).
  - vm_compute; reflexivity.
  - cbn. intuition discriminate.
Defined.

(** ** resetToInitial, onUnmounted *)


(** X6.  [resetToInitial] empties the display and switches every flag
    off, as [stopUpdate] does with the timers held in refs; it keeps
    [keyword] and [lastSearchParams], cancels no request and no timer
    that is held in no ref, and a second call changes nothing. *)
Theorem resetToInitial_effect (w : World) :
  let w' := resetToInitial w in
  shown w' = (0, []) /\
  loading (store w') = false /\
  hasSearched (store w') = false /\
  searchTime (store w') = None /\
  updateCount (store w') = 0 /\
  sequence_over w' /\
  keyword (store w') = keyword (store w) /\
  lastSearchParams (store w') = lastSearchParams (store w) /\
  requests w' = requests w /\
  (forall h, timers w' !! h = if decide (stored_handle w h) then None else timers w !! h) /\
  resetToInitial w' = w'.
Proof.
  cbv zeta. unfold shown, sequence_over. rewrite resetToInitial_store.
  destruct (resetToInitial_world w) as (_ & Ht & _ & Hq & _).
  repeat (split; [reflexivity|]). split; [repeat split|].
  repeat (split; [reflexivity|]).
  split; [rewrite Hq; apply stopUpdate_requests|].
  split; [intros h; rewrite Ht; apply stopUpdate_timers|].
  destruct w as [s n tm nt rq nr];
    destruct s as [? ? ? ? ? ? [a|] [b|] [c|] ? ? ? ?]; reflexivity.
Qed.



(** X8.  Once [stopUpdate] has run, as it does when the component is
    unmounted, a timer whose handle was held in a ref never runs; every
    other timer is pending as before. *)
Theorem stopUpdate_cancels_stored_timers (w : World) (h : positive) :
  (h < next_timer w)%positive ->
  step w Unmounted = Some (stopUpdate w) /\
  (stored_handle w h -> never_fires (stopUpdate w) h) /\
  (~ stored_handle w h -> timers (stopUpdate w) !! h = timers w !! h).
Proof.
  intros Hlt. split; [reflexivity|]. split.
  - intros Hs. apply gone_never_fires.
    + rewrite stopUpdate_next_timer. exact Hlt.
    + rewrite stopUpdate_timers. case_decide; [reflexivity | contradiction].
  - intros Hns. rewrite stopUpdate_timers. case_decide; [contradiction | reflexivity].
Qed.

Lemma stopUpdate_cancels_stored_timers_witness :
  (2 < next_timer (Ex.after Ex.second_pending))%positive /\
  never_fires (stopUpdate (Ex.after Ex.second_pending)) 2.
Proof.
  assert (H : (2 < next_timer (Ex.after Ex.second_pending))%positive)
    by (vm_compute; reflexivity).
  split; [exact H|].
  apply (proj1 (proj2 (stopUpdate_cancels_stored_timers _ 2 H))).
  right; left. vm_compute; reflexivity.
Defined.

(** ** Keys, once more *)

(** X9.  Removing the prefix undoes the prefixing of a key that does not
    begin with "disk_" itself, and in general gives what removing the
    prefix from the key gives; prefixing twice is prefixing once; two
    keys that do not begin with "disk_" are never given the same key. *)
Theorem key_round_trip (k : string) :
  Keys.denormalizeKey (Keys.normalizeKey k) = Keys.denormalizeKey k /\
  (Keys.strip Keys.disk_prefix k = None ->
     Keys.denormalizeKey (Keys.normalizeKey k) = k) /\
  Keys.normalizeKey (Keys.normalizeKey k) = Keys.normalizeKey k /\
  (forall k', Keys.strip Keys.disk_prefix k = None ->
     Keys.strip Keys.disk_prefix k' = None ->
     Keys.normalizeKey k = Keys.normalizeKey k' -> k = k').
Proof.
  assert (Hd : forall x, Keys.strip Keys.disk_prefix x = None ->
            Keys.denormalizeKey (Keys.normalizeKey x) = x).
  { intros x Hx. rewrite denormalizeKey_normalizeKey. unfold Keys.denormalizeKey.
    rewrite Hx. reflexivity. }
  split; [apply denormalizeKey_normalizeKey|]. split; [apply Hd|]. split.
  - unfold Keys.normalizeKey at 1. rewrite normalizeKey_not_digits. reflexivity.
  - intros k' Hk Hk' E. rewrite <- (Hd k Hk), <- (Hd k' Hk'), E. reflexivity.
Qed.

Lemma key_round_trip_witness :
  Keys.strip Keys.disk_prefix "101" = None /\
  Keys.denormalizeKey (Keys.normalizeKey "101") = "101".
Proof.
  split; [reflexivity|]. apply (proj1 (proj2 (key_round_trip "101"))). reflexivity.
Defined.

Lemma filter_all {A} (f : A -> bool) l :
  (forall x, In x l -> f x = true) -> List.filter f l = l.
Proof.
  induction l as [|x l IH]; intros H; [reflexivity|]. cbn [List.filter].
  rewrite (H x (or_introl eq_refl)), IH; [reflexivity|].
  intros y Hy. apply H. right. exact Hy.
Qed.

(** X10.  Publishing a published category map again gives the same map:
    its keys are prefixed, in order and distinct already. *)
Theorem sortedMerged_idempotent (merged : MergedResults) :
  sortedMerged (sortedMerged merged) = sortedMerged merged.
Proof.
  set (out := sortedMerged merged).
  assert (Hin : forall e, In e out ->
            Keys.test_digits (fst e) = false /\ fst e <> Entries.proto).
  { intros [k v] H. apply sortedMerged_In in H as (Hp & k0 & _ & ->).
    split; [apply normalizeKey_not_digits | exact Hp]. }
  assert (Hnd : List.NoDup (map fst out)) by apply to_object_keys_NoDup.
  assert (Hs : StronglySorted pos_le out) by apply sortedMerged_sorted.
  clearbody out.
  assert (Hmap : map normalised out = out).
  { rewrite <- (map_id out) at 2. apply map_ext_in. intros [k v] H.
    pose proof (proj1 (Hin _ H)) as Hd. cbn [fst] in Hd.
    unfold normalised, Keys.normalizeKey. cbn [fst snd]. rewrite Hd. reflexivity. }
  rewrite sortedMerged_unfold, Hmap.
  rewrite (sort_by_sorted_id (fun e => Keys.pos (fst e)) out Hs).
  rewrite (to_object_NoDup out Hnd). apply filter_all.
  intros e H. apply negb_true_iff, String.eqb_neq. apply (Hin e H).
Qed.
